(** * License server: activation, heartbeat and issuing

    A shallow embedding of [license-server/index.js]: the duration parser
    [getDurationMs] and the three request handlers [/verify],
    [/validate-token] and [/generate], over an explicit model of the
    license table, of the store client's [{data, error}] protocol and of
    the signed session credential. *)

From Stdlib Require Import ZArith List String Ascii Bool Lia.
Import ListNotations.

Open Scope string_scope.
Open Scope Z_scope.

(** ** JavaScript primitives used by the server

    Strings are sequences of code units below 256 (Latin-1).  Numbers are
    binary64 values; the ones the server computes with are integers or
    infinite, and are kept as such, every operation rounding its exact
    result to the nearest binary64 value, ties to even. *)
Module JS.

(** A Number that is an integer, [Infinity] or [-Infinity] *)
Inductive Number : Type :=
| Finite (z : Z)
| Infinity
| NegInfinity.

(** A non-negative integer rounded to 53 significant bits, to nearest, ties
    to even *)
Definition round53 (a : Z) : Z :=
  if a <? 2 ^ 53 then a
  else
    let q := 2 ^ (Z.log2 a - 52) in
    let m := a / q in
    let rest := a mod q in
    if (q <? 2 * rest) || ((2 * rest =? q) && Z.odd m) then (m + 1) * q
    else m * q.

(** The Number value for the integer [z]: what binary64 makes of it,
    infinite from [2^1024] on *)
Definition to_number (z : Z) : Number :=
  let r := round53 (Z.abs z) in
  if 2 ^ 1024 <=? r then (if z <? 0 then NegInfinity else Infinity)
  else Finite (Z.sgn z * r).

(** [x * n] for a positive integer literal [n] *)
Definition mul (x : Number) (n : Z) : Number :=
  match x with
  | Finite z => to_number (z * n)
  | Infinity => Infinity
  | NegInfinity => NegInfinity
  end.

(** [t + x] for an integer [t] *)
Definition add (t : Z) (x : Number) : Number :=
  match x with
  | Finite z => to_number (t + z)
  | Infinity => Infinity
  | NegInfinity => NegInfinity
  end.

Definition code (c : ascii) : Z := Z.of_nat (nat_of_ascii c).

Definition chr (z : Z) : ascii := ascii_of_nat (Z.to_nat z).

(** [\d] *)
Definition is_digit (c : ascii) : bool :=
  (48 <=? code c) && (code c <=? 57).

(** [\s], restricted to code units below 256: TAB, LF, VT, FF, CR, SP, NBSP. *)
Definition is_space (c : ascii) : bool :=
  ((9 <=? code c) && (code c <=? 13)) || (code c =? 32) || (code c =? 160).

(** [String.prototype.toLowerCase] on one Latin-1 code unit. *)
Definition lower_char (c : ascii) : ascii :=
  let n := code c in
  if (65 <=? n) && (n <=? 90) then chr (n + 32)
  else if (192 <=? n) && (n <=? 222) && negb (n =? 215) then chr (n + 32)
  else c.

(** [String.prototype.toUpperCase] on one ASCII code unit; the server
    applies it to base-36 digits only. *)
Definition upper_char (c : ascii) : ascii :=
  let n := code c in
  if (97 <=? n) && (n <=? 122) then chr (n - 32) else c.

Fixpoint map_string (f : ascii -> ascii) (s : string) : string :=
  match s with
  | EmptyString => EmptyString
  | String c t => String (f c) (map_string f t)
  end.

Definition toLowerCase : string -> string := map_string lower_char.
Definition toUpperCase : string -> string := map_string upper_char.

(** [s.substring(a, b)] for [0 <= a <= b]. *)
Definition substring (a b : nat) (s : string) : string :=
  String.substring a (Nat.min b (String.length s) - a) s.

(** The integer a string of decimal digits denotes *)
Fixpoint parseInt_acc (acc : Z) (s : string) : Z :=
  match s with
  | EmptyString => acc
  | String c t => parseInt_acc (10 * acc + (code c - 48)) t
  end.

(** [parseInt] on a string of decimal digits: the Number value for the
    integer they denote *)
Definition parseInt (s : string) : Number := to_number (parseInt_acc 0 s).

(** The longest prefix of [s] whose code units satisfy [p], and the rest. *)
Fixpoint span (p : ascii -> bool) (s : string) : string * string :=
  match s with
  | EmptyString => (EmptyString, EmptyString)
  | String c t =>
      if p c then let (a, b) := span p t in (String c a, b)
      else (EmptyString, s)
  end.

(** Does [s] start with the lower-case ASCII literal [k], ignoring case
    (flag [i])?  The match is returned as it stands in [s].  Only the two
    ASCII cases of a letter fold onto it: [lower_char] keeps code units
    from 128 on above 128. *)
Fixpoint literal_ci (k s : string) : option string :=
  match k, s with
  | EmptyString, _ => Some EmptyString
  | String a k', String c s' =>
      if Ascii.eqb (lower_char c) a then
        match literal_ci k' s' with
        | Some m => Some (String c m)
        | None => None
        end
      else None
  | String _ _, EmptyString => None
  end.

(** The alternation [(day|hour|minute|second)], tried left to right. *)
Fixpoint alternation_ci (ks : list string) (s : string) : option string :=
  match ks with
  | [] => None
  | k :: ks' =>
      match literal_ci k s with
      | Some m => Some m
      | None => alternation_ci ks' s
      end
  end.

Definition unit_words : list string := ["day"; "hour"; "minute"; "second"].

(** [/(\d+)\s*(day|hour|minute|second)/i] anchored at the start of [s]:
    the two capture groups.  [\d+] and [\s*] are greedy, and giving back a
    digit or a blank never helps, since the alternation starts with a
    letter: the match exists exactly when the unit follows the longest
    runs. *)
Definition match_here (s : string) : option (string * string) :=
  let (ds, r1) := span is_digit s in
  match ds with
  | EmptyString => None
  | String _ _ =>
      let (_, r2) := span is_space r1 in
      match alternation_ci unit_words r2 with
      | Some u => Some (ds, u)
      | None => None
      end
  end.

(** [s.match(re)] without the [g] flag: the leftmost match. *)
Fixpoint regex_match (s : string) : option (string * string) :=
  match match_here s with
  | Some m => Some m
  | None =>
      match s with
      | EmptyString => None
      | String _ t => regex_match t
      end
  end.

End JS.

(** ** The duration parser (index.js, lines 24-41) *)

Definition defaultMs : Z := 30 * 24 * 60 * 60 * 1000.

Notation "x ** n" := (JS.mul x n) (at level 40, left associativity).

(** [durationStr] is the [plan_duration] column: a string or [null]. *)
Definition getDurationMs (durationStr : option string) : JS.Number :=
  match durationStr with
  | None => JS.Finite defaultMs
  | Some s =>
      if (s =? "")%string || (JS.toLowerCase s =? "null")%string
      then JS.Finite defaultMs
      else
        match JS.regex_match s with
        | None => JS.Finite defaultMs
        | Some (m1, m2) =>
            let value := JS.parseInt m1 in
            let unit := JS.toLowerCase m2 in
            if (unit =? "day")%string then value ** 24 ** 60 ** 60 ** 1000
            else if (unit =? "hour")%string then value ** 60 ** 60 ** 1000
            else if (unit =? "minute")%string then value ** 60 ** 1000
            else if (unit =? "second")%string then value ** 1000
            else JS.Finite defaultMs
        end
  end.

(** ** [Math.random().toString(36)]

    An outcome of [Math.random()] is a binary64 value in [0, 1); engines
    draw it on the grid of multiples of 2^-53, so an outcome is given by its
    numerator [k], [0 <= k < 2^53].  The rendering follows the engine's
    radix conversion for a value below one: fractional digits are produced
    while the remainder is at least [delta], half the distance to the next
    binary64 value, with a final round-up that may carry.  Remainder and
    [delta] are binary64 values, multiples of 2^-106: they are kept as
    numerators over 2^106, and each product and sum is rounded to 53
    significant bits as the engine's is. *)
Module Radix36.

Definition denominator : Z := 2 ^ 106.

Definition digit_char (d : Z) : ascii :=
  if d <? 10 then JS.chr (48 + d) else JS.chr (87 + d).

(** The carry of the final round-up, on the digits written so far, last
    digit first; [true] when it reaches the integer part. *)
Fixpoint carry (written : list Z) : list Z * bool :=
  match written with
  | [] => ([], true)
  | d :: ds => if d + 1 <? 36 then ((d + 1) :: ds, false) else carry ds
  end.

Fixpoint fraction_digits (fuel : nat) (fraction delta : Z)
    (written : list Z) : list Z * bool :=
  match fuel with
  | O => (written, false)
  | S fuel' =>
      let fraction := JS.round53 (36 * fraction) in
      let delta := JS.round53 (36 * delta) in
      let digit := fraction / denominator in
      let written := digit :: written in
      let fraction := fraction mod denominator in
      if ((denominator / 2 <? fraction)
          || ((fraction =? denominator / 2) && Z.odd digit))
         && (denominator <? JS.round53 (fraction + delta))
      then carry written
      else if delta <=? fraction then
        fraction_digits fuel' fraction delta written
      else (written, false)
  end.

Fixpoint string_of_digits (ds : list Z) : string :=
  match ds with
  | [] => EmptyString
  | d :: ds' => String (digit_char d) (string_of_digits ds')
  end.

(** [(k / 2^53).toString(36)] *)
Definition toString36 (k : Z) : string :=
  if k <=? 0 then "0"
  else
    let '(written, carried) :=
      fraction_digits 64 (k * 2 ^ 53) (2 ^ Z.log2 k) [] in
    if carried then "1"
    else
      match written with
      | [] => "0"
      | _ :: _ => "0." ++ string_of_digits (rev written)
      end.

End Radix36.

(** ** Data model *)

(** A row of the [licenses] table.  [expires_at] and [created_at] are
    timestamps, given in milliseconds since the epoch; [None] is SQL
    [null]. *)
Record License : Type := mkLicense {
  id : Z;
  email : string;
  license_key : string;
  plan_duration : option string;
  status : string;
  is_used : bool;
  expires_at : option Z;
  created_at : Z
}.

(** A field of a JSON request body as the handlers observe it: absent
    ([undefined]), [null], a string, or any other JSON value (boolean,
    number, array, object), of which the handlers see the truthiness and
    the text it is sent to the store as. *)
Inductive JsValue : Type :=
| JUndefined
| JNull
| JString (s : string)
| JOther (truthy : bool) (text : string).

Definition truthy (v : JsValue) : bool :=
  match v with
  | JUndefined | JNull => false
  | JString s => negb (s =? "")%string
  | JOther b _ => b
  end.

Definition text_of (v : JsValue) : string :=
  match v with
  | JString s => s
  | JOther _ t => t
  | JUndefined | JNull => ""
  end.

(** [v === process.env.X]: an environment variable is a string or
    [undefined]. *)
Definition strict_eq_env (v : JsValue) (x : option string) : bool :=
  match v, x with
  | JUndefined, None => true
  | JString s, Some s' => (s =? s')%string
  | _, _ => false
  end.

Record Env : Type := mkEnv {
  JWT_SECRET : option string;
  ADMIN_SECRET : option string
}.

(** *** Session credentials

    A credential is kept symbolically: its claims and the key it was signed
    with.  HS256 is deterministic, so equal claims under equal keys give
    equal credentials, and a signature verifies under the signing key
    only. *)
Record Claims : Type := mkClaims {
  claim_id : Z;
  claim_email : string;
  iat : Z;
  exp : Z
}.

Record Jwt : Type := mkJwt {
  claims : Claims;
  signing_key : string
}.

(** What follows ["Bearer "] in the header: a compact credential or
    anything else. *)
Inductive Credential : Type :=
| Garbled (s : string)
| Compact (t : Jwt).

(** The [Authorization] header as [startsWith("Bearer ")] and
    [split(" ")[1]] see it. *)
Inductive Authorization : Type :=
| NoHeader
| OtherScheme (value : string)
| Bearer (token : Credential).

(** *** Responses *)
Inductive Body : Type :=
| Message (success : bool) (message : string)
| Token (token : Jwt)
| Validity (valid : bool) (reason : option string)
| StoreError (error : string)
| Created (license : License).

Record Response : Type := mkResponse {
  http_status : Z;
  body : Body
}.

(** ** The license store

    The table is the list of its rows.  Every call of the store client is
    recorded in [calls]; [faults] scripts the failures of the calls to come
    (the head is the next call's: [Some msg] makes it fail with message [msg]
    and without effect; no entry means no failure).  The client reports a
    failure in the [error] field of its reply, which is how every call site
    of the server reads it. *)
Inductive StoreCall : Type :=
| SelectByCredentials (email license_key : string)
| SelectById (id : Z)
| UpdateStatus (id : Z) (status : string)
| UpdateActivation (id : Z) (expires_at : Z)
| Insert (email license_key plan_duration : string) (created_at : Z).

Record World : Type := mkWorld {
  rows : list License;
  faults : list (option string);
  calls : list StoreCall
}.

(** The [{data, error}] reply of the client *)
Inductive Reply (A : Type) : Type :=
| Data (data : A)
| Error (message : string).

Arguments Data {A} data.
Arguments Error {A} message.

Module Store.

(** Records the call and takes its scripted fault. *)
Definition issue (c : StoreCall) (w : World) : option string * World :=
  (hd None (faults w),
   mkWorld (rows w) (tl (faults w)) (calls w ++ [c])).

Definition with_rows (rs : list License) (w : World) : World :=
  mkWorld rs (faults w) (calls w).

(** [.single()]: exactly one row, or an error *)
Definition single (rs : list License) : Reply License :=
  match rs with
  | [r] => Data r
  | _ => Error "JSON object requested, multiple (or no) rows returned"
  end.

Definition by_credentials (e k : string) (r : License) : bool :=
  (email r =? e)%string && (license_key r =? k)%string.

Definition by_id (i : Z) (r : License) : bool := id r =? i.

(** [.select("*").eq("email", e).eq("license_key", k).single()] *)
Definition select_by_credentials (e k : string) (w : World)
  : Reply License * World :=
  let (fault, w1) := issue (SelectByCredentials e k) w in
  match fault with
  | Some msg => (Error msg, w1)
  | None => (single (filter (by_credentials e k) (rows w1)), w1)
  end.

(** [.select("id, status, expires_at").eq("id", i).single()] *)
Definition select_by_id (i : Z) (w : World) : Reply License * World :=
  let (fault, w1) := issue (SelectById i) w in
  match fault with
  | Some msg => (Error msg, w1)
  | None => (single (filter (by_id i) (rows w1)), w1)
  end.

Definition update_where (i : Z) (f : License -> License)
    (rs : list License) : list License :=
  map (fun r => if by_id i r then f r else r) rs.

Definition set_status (s : string) (r : License) : License :=
  mkLicense (id r) (email r) (license_key r) (plan_duration r) s
    (is_used r) (expires_at r) (created_at r).

Definition set_activated (t : Z) (r : License) : License :=
  mkLicense (id r) (email r) (license_key r) (plan_duration r) "active"
    true (Some t) (created_at r).

(** [.update({ status: s }).eq("id", i)] *)
Definition update_status (i : Z) (s : string) (w : World)
  : Reply unit * World :=
  let (fault, w1) := issue (UpdateStatus i s) w in
  match fault with
  | Some msg => (Error msg, w1)
  | None => (Data tt, with_rows (update_where i (set_status s) (rows w1)) w1)
  end.

(** [.update({ is_used: true, expires_at: t, status: "active" })
     .eq("id", i).select().single()] *)
Definition update_activation (i : Z) (t : Z) (w : World)
  : Reply License * World :=
  let (fault, w1) := issue (UpdateActivation i t) w in
  match fault with
  | Some msg => (Error msg, w1)
  | None =>
      let rs := update_where i (set_activated t) (rows w1) in
      (single (filter (by_id i) rs), with_rows rs w1)
  end.

(** The identifier the table gives a new row. *)
Definition next_id (rs : list License) : Z :=
  1 + fold_right Z.max 0 (map id rs).

(** [.insert([{ email, license_key, plan_duration, status, is_used,
     created_at }]).select().single()]; the columns left out take their
    defaults, [expires_at] being [null]. *)
Definition insert (e k p : string) (c : Z) (w : World)
  : Reply License * World :=
  let (fault, w1) := issue (Insert e k p c) w in
  match fault with
  | Some msg => (Error msg, w1)
  | None =>
      let r := mkLicense (next_id (rows w1)) e k (Some p) "active" false
                 None c in
      (Data r, with_rows (rows w1 ++ [r]) w1)
  end.

End Store.

(** ** Handler bodies: store state and exceptions *)

Inductive Outcome (A : Type) : Type :=
| Ret (a : A)
| Throw (error : string).

Arguments Ret {A} a.
Arguments Throw {A} error.

Definition M (A : Type) : Type := World -> Outcome A * World.

Definition ret {A} (a : A) : M A := fun w => (Ret a, w).

Definition throw {A} (e : string) : M A := fun w => (Throw e, w).

Definition bind {A B} (m : M A) (k : A -> M B) : M B :=
  fun w =>
    match m w with
    | (Ret a, w1) => k a w1
    | (Throw e, w1) => (Throw e, w1)
    end.

(** A call that returns or throws without touching the store *)
Definition call {A} (o : Outcome A) : M A := fun w => (o, w).

(** [await] on a store call: its reply, never an exception *)
Definition await {A} (call : World -> Reply A * World) : M (Reply A) :=
  fun w => let (r, w1) := call w in (Ret r, w1).

(** [try { m } catch (err) { return h }] *)
Definition try_catch {A} (m : M A) (h : A) : World -> A * World :=
  fun w =>
    match m w with
    | (Ret a, w1) => (a, w1)
    | (Throw _, w1) => (h, w1)
    end.

Notation "x <- m ;; k" := (bind m (fun x => k))
  (at level 61, m at next level, right associativity).

(** *** Dates *)

(** The largest time value of a [Date]. *)
Definition TIME_CLIP : Z := 8640000000000000.

(** [new Date(ms).toISOString()]: a [RangeError] when [ms] is infinite or
    outside the range of [Date]. *)
Definition toISOString (ms : JS.Number) : Outcome Z :=
  match ms with
  | JS.Finite t =>
      if Z.abs t <=? TIME_CLIP then Ret t else Throw "Invalid time value"
  | JS.Infinity | JS.NegInfinity => Throw "Invalid time value"
  end.

(** [new Date(license.expires_at)]: [null] converts to 0, the epoch; a
    stored timestamp lies in the range of [Date]. *)
Definition new_Date (column : option Z) : Z :=
  match column with
  | None => 0
  | Some t => t
  end.

Definition is_set (column : option Z) : bool :=
  match column with
  | None => false
  | Some _ => true
  end.

(** *** jsonwebtoken *)

Definition usable (secret : option string) : option string :=
  match secret with
  | Some k => if (k =? "")%string then None else Some k
  | None => None
  end.

(** [jwt.sign({ id, email }, secret, { expiresIn: "24h" })], the library
    reading the clock at [clock] milliseconds. *)
Definition jwt_sign (i : Z) (e : string) (secret : option string)
    (clock : Z) : Outcome Jwt :=
  match usable secret with
  | Some k =>
      let t := clock / 1000 in
      Ret (mkJwt (mkClaims i e t (t + 24 * 60 * 60)) k)
  | None => Throw "secretOrPrivateKey must have a value"
  end.

(** [jwt.verify(token, secret)] *)
Definition jwt_verify (token : Credential) (secret : option string)
    (clock : Z) : Outcome Claims :=
  match token, usable secret with
  | Compact t, Some k =>
      if negb (signing_key t =? k)%string then Throw "invalid signature"
      else if exp (claims t) <=? clock / 1000 then Throw "jwt expired"
      else Ret (claims t)
  | Compact _, None => Throw "secret or public key must be provided"
  | Garbled _, _ => Throw "jwt malformed"
  end.

(** ** The request handlers *)

Definition respond (st : Z) (b : Body) : Response := mkResponse st b.

Definition revoked_or_suspended (license : License) : bool :=
  (status license =? "revoked")%string
  || (status license =? "suspended")%string.

(** The lazy transition both handlers share:
    [if (license.status !== "expired") await ...update({status: "expired"})];
    the reply of the update is not looked at. *)
Definition mark_expired (license : License) : M unit :=
  if negb (status license =? "expired")%string then
    _ <- await (Store.update_status (id license) "expired") ;; ret tt
  else ret tt.

(** [POST /verify] (index.js, lines 46-123).  [req_email] and
    [req_license_key] are the fields of [req.body]; [now] is [new Date()];
    [clock] is the time [jwt.sign] reads. *)
Definition verify (env : Env) (now clock : Z)
    (req_email req_license_key : JsValue)
  : World -> Response * World :=
  if negb (truthy req_email) || negb (truthy req_license_key) then
    fun w => (respond 400 (Message false "Missing email or license key"), w)
  else
    try_catch
      (found <- await (Store.select_by_credentials
                         (text_of req_email) (text_of req_license_key)) ;;
       match found with
       | Error _ => ret (respond 404 (Message false "Invalid credentials"))
       | Data license =>
           if revoked_or_suspended license then
             ret (respond 403 (Message false "License revoked"))
           else if is_used license && is_set (expires_at license) then
             let expiryDate := new_Date (expires_at license) in
             if expiryDate <? now then
               _ <- mark_expired license ;;
               ret (respond 403 (Message false "License expired"))
             else
               token <- call (jwt_sign (id license) (email license)
                                (JWT_SECRET env) clock) ;;
               ret (respond 200 (Token token))
           else
             let durationMs := getDurationMs (plan_duration license) in
             expiryTimestamp <- call (toISOString (JS.add now durationMs)) ;;
             updated <- await (Store.update_activation (id license)
                                 expiryTimestamp) ;;
             match updated with
             | Error updateErr => throw updateErr
             | Data activated =>
                 token <- call (jwt_sign (id activated) (email activated)
                                  (JWT_SECRET env) clock) ;;
                 ret (respond 200 (Token token))
             end
       end)
      (respond 500 (Message false "Server error")).

Definition invalid (st : Z) (reason : string) : Response :=
  respond st (Validity false (Some reason)).

(** [GET /validate-token] (index.js, lines 128-173).  [clock] is the time
    [jwt.verify] reads; [now] is [new Date()]. *)
Definition validate_token (env : Env) (clock now : Z)
    (authHeader : Authorization) : World -> Response * World :=
  match authHeader with
  | NoHeader | OtherScheme _ => fun w => (invalid 401 "NO_TOKEN", w)
  | Bearer token =>
      try_catch
        (decoded <- call (jwt_verify token (JWT_SECRET env) clock) ;;
         found <- await (Store.select_by_id (claim_id decoded)) ;;
         match found with
         | Error _ => ret (invalid 401 "NOT_FOUND")
         | Data license =>
             let expiry := new_Date (expires_at license) in
             if revoked_or_suspended license then
               ret (invalid 403 "REVOKED")
             else if (expiry <? now)
                     || (status license =? "expired")%string then
               _ <- mark_expired license ;;
               ret (invalid 401 "EXPIRED")
             else ret (respond 200 (Validity true None))
         end)
        (invalid 401 "INVALID_SESSION")
  end.

(** [Math.random().toString(36).substring(2, 6).toUpperCase()] on the
    outcome [k] of [Math.random()] *)
Definition key_part (k : Z) : string :=
  JS.toUpperCase (JS.substring 2 6 (Radix36.toString36 k)).

(** [POST /generate] (index.js, lines 178-211).  [random1] and [random2]
    are the outcomes of the two calls of [Math.random()]; [now] is
    [new Date()]. *)
Definition generate (env : Env) (now random1 random2 : Z)
    (req_email req_plan_duration req_admin_secret : JsValue)
  : World -> Response * World :=
  fun w =>
    if negb (strict_eq_env req_admin_secret (ADMIN_SECRET env)) then
      (respond 401 (Message false "Unauthorized"), w)
    else if negb (truthy req_email) then
      (respond 400 (Message false "Email required"), w)
    else
      let part1 := key_part random1 in
      let part2 := key_part random2 in
      let key := "PRO-" ++ part1 ++ "-" ++ part2 in
      let plan :=
        if truthy req_plan_duration then text_of req_plan_duration
        else "30 days" in
      match Store.insert (text_of req_email) key plan now w with
      | (Error msg, w1) => (respond 500 (StoreError msg), w1)
      | (Data data, w1) => (respond 200 (Created data), w1)
      end.

(** ** Vocabulary of the statements *)

(** The millisecond factor of a unit word. *)
Definition unit_ms (u : string) : Z :=
  if (u =? "day")%string then 24 * 60 * 60 * 1000
  else if (u =? "hour")%string then 60 * 60 * 1000
  else if (u =? "minute")%string then 60 * 1000
  else if (u =? "second")%string then 1000
  else 0.

(** What the [switch] of [getDurationMs] makes of the quantity [value] and
    the unit word [u] *)
Definition scaled (value : JS.Number) (u : string) : JS.Number :=
  if (u =? "day")%string then value ** 24 ** 60 ** 60 ** 1000
  else if (u =? "hour")%string then value ** 60 ** 60 ** 1000
  else if (u =? "minute")%string then value ** 60 ** 1000
  else if (u =? "second")%string then value ** 1000
  else JS.Finite defaultMs.

(** The Number is not below zero. *)
Definition nonnegative (x : JS.Number) : Prop :=
  match x with
  | JS.Finite t => 0 <= t
  | JS.Infinity => True
  | JS.NegInfinity => False
  end.

Definition not_digit (c : ascii) : bool := negb (JS.is_digit c).

Fixpoint all_chars (p : ascii -> bool) (s : string) : bool :=
  match s with
  | EmptyString => true
  | String c t => p c && all_chars p t
  end.

(** The first code unit of [s], if any, fails [p]. *)
Definition stops (p : ascii -> bool) (s : string) : bool :=
  match s with
  | EmptyString => true
  | String c _ => negb (p c)
  end.

(** The capture groups with the unit folded to lower case. *)
Definition fold_groups (m : string * string) : string * string :=
  (fst m, JS.toLowerCase (snd m)).

(** A request field that is absent, [null] or the empty string. *)
Definition blank (v : JsValue) : Prop :=
  v = JUndefined \/ v = JNull \/ v = JString "".

(** The next [n] store calls are not scripted to fail. *)
Fixpoint succeed (n : nat) (fs : list (option string)) : bool :=
  match n, fs with
  | O, _ => true
  | S _, [] => true
  | S n', None :: fs' => succeed n' fs'
  | S _, Some _ :: _ => false
  end.

(** *** The key format [PRO-XXXX-XXXX] *)

Definition is_upper_alnum (c : ascii) : bool :=
  let n := JS.code c in
  ((48 <=? n) && (n <=? 57)) || ((65 <=? n) && (n <=? 90)).

Definition four_upper_alnum (s : string) : bool :=
  (String.length s =? 4)%nat && all_chars is_upper_alnum s.

Definition matches_key_format (key : string) : bool :=
  (String.substring 0 4 key =? "PRO-")%string
  && four_upper_alnum (String.substring 4 4 key)
  && (String.substring 8 1 key =? "-")%string
  && four_upper_alnum (String.substring 9 4 key)
  && (String.length key =? 13)%nat.

(** *** Lookups, activation and call sequences *)

(** The lookup of [/verify] is not scripted to fail and finds exactly [r]. *)
Definition finds_by_credentials (w : World) (e k : JsValue) (r : License)
  : Prop :=
  truthy e = true /\ truthy k = true
  /\ hd None (faults w) = None
  /\ filter (Store.by_credentials (text_of e) (text_of k)) (rows w) = [r].

(** The credential verifies, and the lookup of [/validate-token] is not
    scripted to fail and finds exactly [r]. *)
Definition finds_by_token (env : Env) (clock : Z) (w : World)
    (token : Credential) (r : License) : Prop :=
  exists c,
    jwt_verify token (JWT_SECRET env) clock = Ret c
    /\ hd None (faults w) = None
    /\ filter (Store.by_id (claim_id c)) (rows w) = [r].

(** The record is marked used and carries an expiry date: the guard of the
    already-activated branch. *)
Definition activated (r : License) : bool :=
  is_used r && is_set (expires_at r).

(** The store calls of a first activation of [r] that expires at [t] *)
Definition activation_of (t : Z) (e k : JsValue) (r : License)
  : list StoreCall :=
  [SelectByCredentials (text_of e) (text_of k);
   UpdateActivation (id r) t].

(** The data model's invariant: a record is used exactly when its
    [expires_at] is set; both are written together, by the first activation
    only. *)
Definition well_formed (r : License) : Prop :=
  is_used r = is_set (expires_at r).

Definition no_activation (new : list StoreCall) : Prop :=
  forall i t, ~ In (UpdateActivation i t) new.

(** The credential [/verify] signs for [r] when the library reads the
    clock at [clock] *)
Definition token_at (key : string) (r : License) (clock : Z) : Jwt :=
  mkJwt (mkClaims (id r) (email r) (clock / 1000)
           (clock / 1000 + 24 * 60 * 60)) key.

(** *** Integer-unit pairs *)

(** An integer, optional blanks and a word that is a unit name up to
    letter case: what the pattern matches *)
Definition unit_pair (ds ws w : string) : Prop :=
  ds <> "" /\ all_chars JS.is_digit ds = true
  /\ all_chars JS.is_space ws = true /\ In (JS.toLowerCase w) JS.unit_words.

(** No pair starts inside [pre] when [pre] is followed by [s]. *)
Definition no_pair_from (pre s : string) : Prop :=
  forall pre1 pre2 ds ws w rest,
    pre = pre1 ++ pre2 -> pre2 <> "" -> unit_pair ds ws w ->
    pre2 ++ s <> ds ++ ws ++ w ++ rest.

(** [s] reads [pre], then its first pair [ds ws w], then [rest]. *)
Definition first_pair (s pre ds ws w rest : string) : Prop :=
  s = pre ++ ds ++ ws ++ w ++ rest /\ unit_pair ds ws w
  /\ no_pair_from pre (ds ++ ws ++ w ++ rest).

(** [s] holds no pair at all. *)
Definition no_pair (s : string) : Prop :=
  forall pre ds ws w rest,
    unit_pair ds ws w -> s <> pre ++ ds ++ ws ++ w ++ rest.

(** *** Text before the first integer-unit pair *)

(** The code unit can start a unit word, in either case. *)
Definition unit_initial (c : ascii) : bool :=
  let l := JS.lower_char c in
  Ascii.eqb l "d" || Ascii.eqb l "h" || Ascii.eqb l "m" || Ascii.eqb l "s".

(** What follows the digits and blanks at the start of [s] *)
Definition after_number (s : string) : string :=
  snd (JS.span JS.is_space (snd (JS.span JS.is_digit s))).

(** Every number of [pre] is followed, after optional blanks and within
    [pre], by a code unit that cannot start a unit word. *)
Fixpoint runs_broken (pre : string) : bool :=
  match pre with
  | EmptyString => true
  | String c t =>
      (if JS.is_digit c then
         match after_number pre with
         | EmptyString => false
         | String b _ => negb (unit_initial b)
         end
       else true)
      && runs_broken t
  end.

(** ** Sample data *)

Definition env0 : Env := mkEnv (Some "s3cret") (Some "admin").

Definition the_email : JsValue := JString "a@b.com".
Definition the_key : JsValue := JString "PRO-AAAA-BBBB".

(** A table of one row, with a fault script and no call recorded *)
Definition world_of (r : License) (fs : list (option string)) : World :=
  mkWorld [r] fs [].

(** A record as [/generate] leaves it *)
Definition fresh_license : License :=
  mkLicense 1 "a@b.com" "PRO-AAAA-BBBB" (Some "1 day") "active" false None 5.

(** An activated record whose expiry lies ahead of the sample times *)
Definition running_license : License :=
  mkLicense 1 "a@b.com" "PRO-AAAA-BBBB" (Some "1 day") "active" true
    (Some 86401000) 5.

(** An activated record whose expiry has passed *)
Definition lapsed_license : License :=
  mkLicense 1 "a@b.com" "PRO-AAAA-BBBB" (Some "1 day") "active" true
    (Some 1000) 5.

Definition revoked_license : License :=
  mkLicense 1 "a@b.com" "PRO-AAAA-BBBB" (Some "1 day") "revoked" true
    (Some 1000) 5.

(** A record that was revoked before it was ever activated *)
Definition revoked_unactivated_license : License :=
  mkLicense 1 "a@b.com" "PRO-AAAA-BBBB" (Some "1 day") "revoked" false None 5.

(** A credential for record 1, signed at second 1 under the key of [env0] *)
Definition session : Credential :=
  Compact (mkJwt (mkClaims 1 "a@b.com" 1 86401) "s3cret").

(** [Math.random()] returning one half, the numerator [2^52] over [2^53] *)
Definition one_half : Z := 2 ^ 52.

(** ** The server as a whole, and further vocabulary *)

Definition base36_digit (d : Z) : Prop := 0 <= d < 36.

Definition pi_draw : Z := 3141592653589793.

(** A quantity of 400 digits *)
Definition many_nines : string :=
  let s5 := "99999" in
  let s20 := s5 ++ s5 ++ s5 ++ s5 in
  let s100 := s20 ++ s20 ++ s20 ++ s20 ++ s20 in
  s100 ++ s100 ++ s100 ++ s100.

(** A request to one of the three routes, with the clock readings and the
    random draws its handler makes *)
Inductive Request : Type :=
| PostVerify (now clock : Z) (req_email req_license_key : JsValue)
| GetValidateToken (clock now : Z) (authHeader : Authorization)
| PostGenerate (now random1 random2 : Z)
    (req_email req_plan_duration req_admin_secret : JsValue).

Definition handle (env : Env) (req : Request) : World -> Response * World :=
  match req with
  | PostVerify now clock e k => verify env now clock e k
  | GetValidateToken clock now h => validate_token env clock now h
  | PostGenerate now r1 r2 e p a => generate env now r1 r2 e p a
  end.

(** The store after a sequence of requests *)
Fixpoint serve (env : Env) (reqs : list Request) (w : World) : World :=
  match reqs with
  | [] => w
  | q :: qs => serve env qs (snd (handle env q w))
  end.

(** The lazy transition on the record [r1] *)
Definition marks_expired (rs rs' : list License) (r1 : License) : Prop :=
  In r1 rs /\ revoked_or_suspended r1 = false
  /\ rs' = Store.update_where (id r1) (Store.set_status "expired") rs.

(** The first activation of the record [r1], expiring at [t] *)
Definition activates (rs rs' : list License) (r1 : License) (t : Z) : Prop :=
  In r1 rs /\ revoked_or_suspended r1 = false /\ activated r1 = false
  /\ rs' = Store.update_where (id r1) (Store.set_activated t) rs.

(** A new record [r] at the end of the table *)
Definition appends (rs rs' : list License) (r : License) : Prop :=
  rs' = (rs ++ [r])%list /\ id r = Store.next_id rs /\ is_used r = false
  /\ expires_at r = None /\ status r = "active".

(** What a request can do to the table *)
Definition table_step (rs rs' : list License) : Prop :=
  rs' = rs
  \/ (exists r1, marks_expired rs rs' r1)
  \/ (exists r1 t, activates rs rs' r1 t)
  \/ (exists r, appends rs rs' r).

(** The fields no request changes, and [is_used], which none resets *)
Definition same_record (r r' : License) : Prop :=
  id r' = id r /\ email r' = email r /\ license_key r' = license_key r
  /\ plan_duration r' = plan_duration r /\ created_at r' = created_at r
  /\ (is_used r = true -> is_used r' = true).

(** What becomes of an activated record: same [id], still activated, same
    [expires_at], and still "expired" if it was. *)
Definition settled (r r' : License) : Prop :=
  id r' = id r /\ activated r' = true /\ expires_at r' = expires_at r
  /\ (status r = "expired" -> status r' = "expired").

(** The record a credential was issued for *)
Definition issued_for (env : Env) (now clock : Z) (tk : Jwt) (r : License)
  : Prop :=
  claim_id (claims tk) = id r /\ claim_email (claims tk) = email r
  /\ iat (claims tk) = clock / 1000
  /\ exp (claims tk) = clock / 1000 + 24 * 60 * 60
  /\ usable (JWT_SECRET env) = Some (signing_key tk)
  /\ is_used r = true /\ revoked_or_suspended r = false
  /\ exists t, expires_at r = Some t /\ now <= t.

Definition endless_license : License :=
  mkLicense 1 "a@b.com" "PRO-AAAA-BBBB" (Some "999999999999 days") "active"
    false None 5.

Definition stale_license : License :=
  mkLicense 1 "a@b.com" "PRO-AAAA-BBBB" (Some "1 day") "expired" true
    (Some 86401000) 5.


Definition second_license : License :=
  mkLicense 2 "c@d.com" "PRO-CCCC-DDDD" (Some "1 day") "active" true
    (Some 1000) 7.

Definition sample_requests : list Request :=
  [PostVerify 5000 5000 the_email the_key;
   PostVerify 5000 5000 (JString "c@d.com") (JString "PRO-CCCC-DDDD");
   GetValidateToken 5000 5000 (Bearer session);
   PostGenerate 6000 pi_draw one_half (JString "e@f.com") JUndefined
     (JString "admin");
   PostVerify 7000 7000 (JString "c@d.com") (JString "PRO-CCCC-DDDD")].

(** ** Properties of the duration parser *)

Section DurationParser.

Import JS.

Lemma lower_char_idem c : lower_char (lower_char c) = lower_char c.
Proof. destruct c as [[] [] [] [] [] [] [] []]; reflexivity. Qed.

Lemma lower_char_digit c : is_digit (lower_char c) = is_digit c.
Proof. destruct c as [[] [] [] [] [] [] [] []]; reflexivity. Qed.

Lemma lower_char_space c : is_space (lower_char c) = is_space c.
Proof. destruct c as [[] [] [] [] [] [] [] []]; reflexivity. Qed.

Lemma digit_lower_char c : is_digit c = true -> lower_char c = c.
Proof.
  destruct c as [[] [] [] [] [] [] [] []]; intro H;
    try reflexivity; vm_compute in H; discriminate.
Qed.

Lemma toLowerCase_idem s : toLowerCase (toLowerCase s) = toLowerCase s.
Proof.
  induction s as [|c s IH]; simpl; [reflexivity|].
  unfold toLowerCase in *; simpl. now rewrite lower_char_idem, IH.
Qed.

Lemma toLowerCase_app a b :
  toLowerCase (a ++ b) = toLowerCase a ++ toLowerCase b.
Proof.
  unfold toLowerCase.
  induction a as [|c a IH]; simpl; [reflexivity | now rewrite IH].
Qed.

(** The digits are kept, the rest is folded. *)
Lemma span_digit_lower s :
  span is_digit (toLowerCase s) =
  (fst (span is_digit s), toLowerCase (snd (span is_digit s))).
Proof.
  unfold toLowerCase.
  induction s as [|c s IH]; simpl; [reflexivity|].
  rewrite lower_char_digit.
  destruct (is_digit c) eqn:Hc; [|reflexivity].
  rewrite IH. destruct (span is_digit s) as [a b]; simpl.
  now rewrite (digit_lower_char _ Hc).
Qed.

Lemma span_space_lower s :
  snd (span is_space (toLowerCase s)) =
  toLowerCase (snd (span is_space s)).
Proof.
  unfold toLowerCase.
  induction s as [|c s IH]; simpl; [reflexivity|].
  rewrite lower_char_space.
  destruct (is_space c) eqn:Hc; [|reflexivity].
  destruct (span is_space (map_string lower_char s)) as [a b].
  destruct (span is_space s) as [a' b']. exact IH.
Qed.

Lemma literal_ci_lower k s :
  literal_ci k (toLowerCase s) = option_map toLowerCase (literal_ci k s).
Proof.
  unfold toLowerCase. revert s.
  induction k as [|a k IH]; intros [|c s]; simpl; try reflexivity.
  rewrite lower_char_idem.
  destruct (Ascii.eqb (lower_char c) a); [|reflexivity].
  rewrite IH. now destruct (literal_ci k s).
Qed.

Lemma alternation_ci_lower ks s :
  alternation_ci ks (toLowerCase s) =
  option_map toLowerCase (alternation_ci ks s).
Proof.
  induction ks as [|k ks IH]; simpl; [reflexivity|].
  rewrite literal_ci_lower.
  destruct (literal_ci k s); simpl; [reflexivity | exact IH].
Qed.

Lemma match_here_lower s :
  match_here (toLowerCase s) = option_map fold_groups (match_here s).
Proof.
  unfold match_here. rewrite span_digit_lower.
  destruct (span is_digit s) as [ds r1]; cbn [fst snd option_map].
  destruct ds as [|d ds]; [reflexivity|].
  pose proof (span_space_lower r1) as Hs.
  destruct (span is_space (toLowerCase r1)) as [x r2].
  destruct (span is_space r1) as [x' r2']. cbn [snd] in Hs. subst r2.
  rewrite alternation_ci_lower.
  now destruct (alternation_ci unit_words r2').
Qed.

Lemma regex_match_lower s :
  regex_match (toLowerCase s) = option_map fold_groups (regex_match s).
Proof.
  induction s as [|c s IH].
  - reflexivity.
  - change (toLowerCase (String c s))
      with (String (lower_char c) (toLowerCase s)) at 1.
    cbn [regex_match].
    change (String (lower_char c) (toLowerCase s))
      with (toLowerCase (String c s)).
    rewrite match_here_lower.
    destruct (match_here (String c s)); simpl; [reflexivity | exact IH].
Qed.

Lemma toLowerCase_empty s : toLowerCase s = "" -> s = "".
Proof. destruct s; [reflexivity | discriminate]. Qed.

(** Folding the case of the input does not change the duration. *)
Lemma getDurationMs_lower s :
  getDurationMs (Some (toLowerCase s)) = getDurationMs (Some s).
Proof.
  unfold getDurationMs.
  rewrite toLowerCase_idem, regex_match_lower.
  assert (He : (toLowerCase s =? "")%string = (s =? "")%string).
  { destruct s; reflexivity. }
  rewrite He.
  destruct ((s =? "")%string || (toLowerCase s =? "null")%string);
    [reflexivity|].
  destruct (regex_match s) as [[m1 m2]|];
    cbn [option_map fold_groups fst snd]; [|reflexivity].
  now rewrite toLowerCase_idem.
Qed.

Lemma space_not_digit c : is_space c = true -> is_digit c = false.
Proof.
  destruct c as [[] [] [] [] [] [] [] []]; intro H;
    try reflexivity; vm_compute in H; discriminate.
Qed.

Lemma span_app p a b :
  all_chars p a = true -> stops p b = true -> span p (a ++ b) = (a, b).
Proof.
  intros Ha Hb. induction a as [|c a IH]; simpl in *.
  - destruct b as [|c b]; [reflexivity|].
    simpl in *. apply negb_true_iff in Hb. now rewrite Hb.
  - apply andb_true_iff in Ha as [Hc Ha]. now rewrite Hc, (IH Ha).
Qed.

Lemma regex_match_skip pre s :
  all_chars not_digit pre = true -> regex_match (pre ++ s) = regex_match s.
Proof.
  intros Hpre. induction pre as [|c pre IH]; [reflexivity|].
  simpl in Hpre. apply andb_true_iff in Hpre as [Hc Hpre].
  apply negb_true_iff in Hc.
  change (String c pre ++ s) with (String c (pre ++ s)).
  cbn [regex_match]. unfold match_here at 1. cbn [span].
  rewrite Hc. now apply IH.
Qed.

Lemma literal_ci_fold k w rest :
  toLowerCase w = k -> literal_ci k (w ++ rest) = Some w.
Proof.
  revert w. induction k as [|a k IH]; intros [|c w] H; try discriminate.
  - reflexivity.
  - injection H as Hc Hw. simpl.
    rewrite Hc, Ascii.eqb_refl. now rewrite (IH w Hw).
Qed.

Lemma literal_ci_head a k c s :
  Ascii.eqb (lower_char c) a = false ->
  literal_ci (String a k) (String c s) = None.
Proof. intros H. simpl. now rewrite H. Qed.

(** A case variant of a unit word is what the alternation matches. *)
Lemma alternation_ci_unit u w rest :
  In u unit_words -> toLowerCase w = u ->
  alternation_ci unit_words (w ++ rest) = Some w.
Proof.
  intros Hu Hw. unfold unit_words in *. cbn [alternation_ci].
  destruct Hu as [<-|[<-|[<-|[<-|[]]]]];
    pose proof (literal_ci_fold _ w rest Hw) as Hm;
    destruct w as [|c w]; try discriminate;
    injection Hw as Hc Hw;
    change (String c w ++ rest) with (String c (w ++ rest)) in *;
    repeat (rewrite literal_ci_head by (now rewrite Hc));
    now rewrite Hm.
Qed.

Lemma unit_head_stops u w rest :
  In u unit_words -> toLowerCase w = u ->
  stops is_digit (w ++ rest) = true /\ stops is_space (w ++ rest) = true.
Proof.
  intros Hu Hw. unfold unit_words in Hu.
  destruct w as [|c w];
    [destruct Hu as [<-|[<-|[<-|[<-|[]]]]]; discriminate|].
  simpl. rewrite <- (lower_char_digit c), <- (lower_char_space c).
  destruct Hu as [<-|[<-|[<-|[<-|[]]]]]; injection Hw as -> _; now split.
Qed.

Lemma match_here_pair ds ws w u rest :
  ds <> "" -> all_chars is_digit ds = true ->
  all_chars is_space ws = true ->
  In u unit_words -> toLowerCase w = u ->
  match_here (ds ++ ws ++ w ++ rest) = Some (ds, w).
Proof.
  intros Hne Hds Hws Hu Hw.
  destruct (unit_head_stops u w rest Hu Hw) as [Hd Hs].
  unfold match_here. rewrite (span_app is_digit ds).
  - destruct ds as [|d ds]; [congruence|].
    rewrite (span_app is_space ws _ Hws Hs).
    now rewrite (alternation_ci_unit u w rest Hu Hw).
  - exact Hds.
  - destruct ws as [|c ws]; [exact Hd|].
    simpl in *. apply andb_true_iff in Hws as [Hc _].
    now rewrite (space_not_digit _ Hc).
Qed.

(** The duration of an input whose leftmost match is known *)
Lemma getDurationMs_of_match s ds w :
  regex_match s = Some (ds, w) ->
  getDurationMs (Some s) = scaled (parseInt ds) (toLowerCase w).
Proof.
  intros Hm.
  pose proof (regex_match_lower s) as Hl. rewrite Hm in Hl.
  unfold getDurationMs.
  destruct (s =? "")%string eqn:He.
  { apply String.eqb_eq in He. rewrite He in Hm. discriminate. }
  destruct (toLowerCase s =? "null")%string eqn:Hn.
  { apply String.eqb_eq in Hn. rewrite Hn in Hl. discriminate. }
  cbn [orb]. now rewrite Hm.
Qed.

(** The duration of an input without a match *)
Lemma getDurationMs_no_match s :
  regex_match s = None -> getDurationMs (Some s) = Finite defaultMs.
Proof.
  intros Hm. unfold getDurationMs. rewrite Hm.
  now destruct ((s =? "")%string || (toLowerCase s =? "null")%string).
Qed.

Lemma regex_match_no_digit s :
  all_chars not_digit s = true -> regex_match s = None.
Proof.
  intros H.
  assert (Hs : s ++ "" = s).
  { clear H. induction s as [|c s IH]; simpl; [reflexivity|].
    now rewrite IH. }
  rewrite <- Hs. now rewrite (regex_match_skip s "" H).
Qed.

End DurationParser.

(** ** Properties of the numbers *)

Lemma round53_small a : a < 2 ^ 53 -> JS.round53 a = a.
Proof.
  intros H. unfold JS.round53. apply Z.ltb_lt in H. now rewrite H.
Qed.

(** From [2^53] on, rounding keeps the leading power of two: the result is
    a multiple of the unit [2^(log2 a - 52)], within half a unit of [a]. *)
Lemma round53_large a :
  2 ^ 53 <= a ->
  let q := 2 ^ (Z.log2 a - 52) in
  exists m, JS.round53 a = m * q /\ 2 ^ 52 <= m
            /\ 2 * a - q <= 2 * (m * q) <= 2 * a + q.
Proof.
  intros H q.
  assert (Hpos : 0 < a) by (assert (0 < 2 ^ 53) by reflexivity; lia).
  assert (He : 53 <= Z.log2 a).
  { apply Z.log2_le_pow2; assumption. }
  assert (Hq : 0 < q) by (apply Z.pow_pos_nonneg; lia).
  assert (Hlog : 2 ^ 52 * q <= a).
  { unfold q. rewrite <- Z.pow_add_r by lia.
    replace (52 + (Z.log2 a - 52)) with (Z.log2 a) by lia.
    now apply Z.log2_spec. }
  assert (Hm : 2 ^ 52 <= a / q) by (apply Z.div_le_lower_bound; lia).
  pose proof (Z.div_mod a q ltac:(lia)) as Hdiv.
  pose proof (Z.mod_pos_bound a q Hq) as Hmod.
  unfold JS.round53.
  assert (Hlt : (a <? 2 ^ 53) = false) by (apply Z.ltb_ge; exact H).
  rewrite Hlt. fold q.
  destruct ((q <? 2 * (a mod q))
            || ((2 * (a mod q) =? q) && Z.odd (a / q))) eqn:Hup.
  - exists (a / q + 1). split; [reflexivity|]. split; [lia|].
    apply orb_true_iff in Hup as [Hup | Hup].
    + apply Z.ltb_lt in Hup. nia.
    + apply andb_true_iff in Hup as [Hup _]. apply Z.eqb_eq in Hup. nia.
  - exists (a / q). split; [reflexivity|]. split; [exact Hm|].
    apply orb_false_iff in Hup as [Hup _]. apply Z.ltb_ge in Hup. nia.
Qed.

Lemma round53_ge a : 2 ^ 53 <= a -> 2 ^ 53 <= JS.round53 a.
Proof.
  intros H. destruct (round53_large a H) as (m & -> & Hm & _).
  assert (53 <= Z.log2 a) by (apply Z.log2_le_pow2; [|exact H];
    assert (0 < 2 ^ 53) by reflexivity; lia).
  assert (2 ^ 1 <= 2 ^ (Z.log2 a - 52)) by (apply Z.pow_le_mono_r; lia).
  change (2 ^ 53) with (2 ^ 52 * 2 ^ 1). nia.
Qed.

Lemma round53_nonneg a : 0 <= a -> 0 <= JS.round53 a.
Proof.
  intros H. destruct (Z.lt_ge_cases a (2 ^ 53)) as [Hs | Hl].
  - now rewrite round53_small.
  - pose proof (round53_ge a Hl). assert (0 < 2 ^ 53) by reflexivity. lia.
Qed.

(** Rounding loses less than one part in 2^53. *)
Lemma round53_lower a : 0 <= a -> 35 * a <= 36 * JS.round53 a.
Proof.
  intros H. destruct (Z.lt_ge_cases a (2 ^ 53)) as [Hs | Hl].
  - rewrite (round53_small _ Hs). lia.
  - destruct (round53_large a Hl) as (m & -> & Hm & Hlo & _).
    assert (0 < 2 ^ 53) by reflexivity.
    assert (He : 53 <= Z.log2 a) by (apply Z.log2_le_pow2; lia).
    assert (Hq : 0 < 2 ^ (Z.log2 a - 52)) by (apply Z.pow_pos_nonneg; lia).
    assert (Hlog : 2 ^ 52 * 2 ^ (Z.log2 a - 52) <= a).
    { rewrite <- Z.pow_add_r by lia.
      replace (52 + (Z.log2 a - 52)) with (Z.log2 a) by lia.
      apply Z.log2_spec. lia. }
    assert (2 ^ 52 = 4503599627370496) by reflexivity. lia.
Qed.

(** Rounding keeps multiples of [2^53] on their grid. *)
Lemma round53_grid a : 0 <= a -> (2 ^ 53 | a) -> (2 ^ 53 | JS.round53 a).
Proof.
  intros H Hdiv. destruct (Z.lt_ge_cases a (2 ^ 53)) as [Hs | Hl].
  { now rewrite (round53_small _ Hs). }
  assert (Hp : 0 < 2 ^ 53) by reflexivity.
  assert (He : 53 <= Z.log2 a) by (apply Z.log2_le_pow2; lia).
  unfold JS.round53.
  assert (Hlt : (a <? 2 ^ 53) = false) by (apply Z.ltb_ge; exact Hl).
  rewrite Hlt. cbv zeta.
  set (q := 2 ^ (Z.log2 a - 52)).
  assert (Hq : 0 < q) by (apply Z.pow_pos_nonneg; lia).
  destruct (Z.le_gt_cases 53 (Z.log2 a - 52)) as [Hbig | Hsmall].
  - assert (Hqd : (2 ^ 53 | q)).
    { exists (2 ^ (Z.log2 a - 52 - 53)). unfold q.
      rewrite <- Z.pow_add_r by lia. f_equal. lia. }
    destruct (_ || _); now apply Z.divide_mul_r.
  - assert (Hqd : (q | 2 ^ 53)).
    { exists (2 ^ (53 - (Z.log2 a - 52))). unfold q.
      rewrite <- Z.pow_add_r by lia. f_equal. lia. }
    assert (Hqa : (q | a)) by (now apply (Z.divide_trans _ (2 ^ 53))).
    assert (Hrest : a mod q = 0) by (apply Z.mod_divide; [lia | exact Hqa]).
    rewrite Hrest.
    assert (H1 : (q <? 2 * 0) = false) by (apply Z.ltb_ge; lia).
    assert (H2 : (2 * 0 =? q) = false) by (apply Z.eqb_neq; lia).
    rewrite H1, H2. cbn [orb andb].
    pose proof (Z.div_mod a q ltac:(lia)) as Hdm.
    replace (a / q * q) with a by lia. exact Hdiv.
Qed.

(** A remainder below one, 36 times over, is not rounded up to 36. *)
Lemma round53_digit f :
  0 <= f < 2 ^ 106 -> (2 ^ 53 | f) -> JS.round53 (36 * f) < 36 * 2 ^ 106.
Proof.
  intros [Hlo Hhi] [j Hj].
  assert (Hp : 2 ^ 53 = 9007199254740992) by reflexivity.
  assert (Hd : 2 ^ 106 = 2 ^ 53 * 2 ^ 53) by reflexivity.
  assert (Hf : f <= 2 ^ 106 - 2 ^ 53) by nia.
  destruct (Z.lt_ge_cases (36 * f) (2 ^ 53)) as [Hs | Hl].
  { rewrite (round53_small _ Hs). lia. }
  destruct (round53_large _ Hl) as (m & -> & _ & _ & Hup).
  assert (Hlog : Z.log2 (36 * f) < 112).
  { apply Z.log2_lt_pow2; [lia|].
    change (2 ^ 112) with (64 * 2 ^ 106). lia. }
  assert (Hq : 2 ^ (Z.log2 (36 * f) - 52) <= 2 ^ 59)
    by (apply Z.pow_le_mono_r; lia).
  change (2 ^ 59) with (64 * 2 ^ 53) in Hq. lia.
Qed.

(** Integers below [2^53] in magnitude are Numbers as they are. *)
Lemma to_number_small z : Z.abs z < 2 ^ 53 -> JS.to_number z = JS.Finite z.
Proof.
  intros H. unfold JS.to_number. rewrite (round53_small _ H).
  assert (Hlt : (2 ^ 1024 <=? Z.abs z) = false).
  { apply Z.leb_gt. assert (2 ^ 53 < 2 ^ 1024) by reflexivity. lia. }
  rewrite Hlt. f_equal. rewrite Z.mul_comm. apply Z.abs_sgn.
Qed.

(** Beyond, they stay beyond. *)
Lemma to_number_large z t :
  2 ^ 53 <= Z.abs z -> JS.to_number z = JS.Finite t -> 2 ^ 53 <= Z.abs t.
Proof.
  intros H. unfold JS.to_number.
  pose proof (round53_ge _ H) as Hr.
  destruct (2 ^ 1024 <=? JS.round53 (Z.abs z)); [destruct (z <? 0);
    discriminate|].
  intros Ht. injection Ht as <-.
  assert (0 < 2 ^ 53) by reflexivity.
  destruct (Z.sgn_spec z) as [[? Hs] | [[? Hs] | [? Hs]]]; rewrite Hs; lia.
Qed.

(** A non-negative integer is never turned negative. *)
Lemma to_number_nonneg z :
  0 <= z ->
  JS.to_number z = JS.Infinity
  \/ exists t, JS.to_number z = JS.Finite t /\ 0 <= t.
Proof.
  intros H. unfold JS.to_number.
  assert (Hz : (z <? 0) = false) by (apply Z.ltb_ge; exact H).
  rewrite Hz.
  destruct (2 ^ 1024 <=? JS.round53 (Z.abs z)); [now left|].
  right. eexists. split; [reflexivity|].
  pose proof (round53_nonneg (Z.abs z) (Z.abs_nonneg z)).
  destruct (Z.sgn_spec z) as [[? Hs] | [[? Hs] | [? Hs]]]; rewrite Hs; lia.
Qed.

(** The date of a first activation: [now + durationMs] is computed exactly
    whenever it is a date at all. *)
Lemma toISOString_add now n :
  toISOString (JS.add now n) =
    match n with
    | JS.Finite d =>
        if Z.abs (now + d) <=? TIME_CLIP then Ret (now + d)
        else Throw "Invalid time value"
    | _ => Throw "Invalid time value"
    end.
Proof.
  destruct n as [d| |]; try reflexivity. cbn [JS.add].
  assert (Hclip : TIME_CLIP < 2 ^ 53) by reflexivity.
  destruct (Z.lt_ge_cases (Z.abs (now + d)) (2 ^ 53)) as [Hs | Hl].
  - now rewrite (to_number_small _ Hs).
  - assert (Hout : (Z.abs (now + d) <=? TIME_CLIP) = false)
      by (apply Z.leb_gt; lia).
    rewrite Hout.
    destruct (JS.to_number (now + d)) as [t| |] eqn:Ht; try reflexivity.
    pose proof (to_number_large _ _ Hl Ht) as Hbig. cbn [toISOString].
    assert (Hout' : (Z.abs t <=? TIME_CLIP) = false)
      by (apply Z.leb_gt; lia).
    now rewrite Hout'.
Qed.

(** ** Properties of the handlers *)

Ltac unfold_handler :=
  repeat (progress
    (unfold try_catch, bind, await, call, ret, throw, mark_expired,
       Store.select_by_credentials, Store.select_by_id, Store.update_status,
       Store.update_activation, Store.insert, Store.issue, Store.with_rows;
     cbn [rows faults calls fst snd])).

Lemma blank_falsy v : blank v -> truthy v = false.
Proof. intros [->|[->| ->]]; reflexivity. Qed.

(** C9.  [/verify] answers a request whose [email] or [license_key] is
    absent, [null] or the empty string with 400 "Missing email or license
    key", and issues no store call: the store, its call record included, is
    as before. *)
Theorem verify_blank_field (env : Env) (now clock : Z) (e k : JsValue)
    (w : World) :
  blank e \/ blank k ->
  verify env now clock e k w =
    (respond 400 (Message false "Missing email or license key"), w)
  /\ calls (snd (verify env now clock e k w)) = calls w.
Proof.
  intros H.
  assert (Hv : verify env now clock e k w =
               (respond 400 (Message false "Missing email or license key"),
                w)).
  { unfold verify.
    destruct H as [H|H]; rewrite (blank_falsy _ H); simpl;
      [reflexivity | now rewrite orb_true_r]. }
  now rewrite Hv.
Qed.

Lemma verify_blank_field_witness :
  verify env0 1000 1000 (JString "") (JString "PRO-AAAA-BBBB")
    (world_of fresh_license []) =
    (respond 400 (Message false "Missing email or license key"),
     world_of fresh_license [])
  /\ calls (snd (verify env0 1000 1000 (JString "")
                   (JString "PRO-AAAA-BBBB") (world_of fresh_license [])))
     = [].
Proof.
  apply verify_blank_field. left. right. right. reflexivity.
Defined.

(** C8.  [/generate] answers 401 "Unauthorized" whenever [admin_secret] is
    not strictly equal to the configured secret, whatever the other fields
    and without touching the store; with the secret right it answers 400 when
    [email] is missing; otherwise, the insert succeeding, it appends one
    record with [is_used = false], [status = "active"], [expires_at] unset,
    [plan_duration] as given or "30 days" when omitted, [created_at = now],
    and returns that record. *)
Theorem generate_contract (env : Env) (now random1 random2 : Z)
    (e p a : JsValue) (w : World) :
  (strict_eq_env a (ADMIN_SECRET env) = false ->
     generate env now random1 random2 e p a w =
       (respond 401 (Message false "Unauthorized"), w))
  /\ (strict_eq_env a (ADMIN_SECRET env) = true -> truthy e = false ->
       generate env now random1 random2 e p a w =
         (respond 400 (Message false "Email required"), w))
  /\ (strict_eq_env a (ADMIN_SECRET env) = true -> truthy e = true ->
       succeed 1 (faults w) = true ->
       exists r,
         fst (generate env now random1 random2 e p a w) =
           respond 200 (Created r)
         /\ rows (snd (generate env now random1 random2 e p a w)) =
            (rows w ++ [r])%list
         /\ email r = text_of e
         /\ is_used r = false
         /\ status r = "active"
         /\ expires_at r = None
         /\ plan_duration r =
            Some (if truthy p then text_of p else "30 days")
         /\ (p = JUndefined -> plan_duration r = Some "30 days")
         /\ created_at r = now).
Proof.
  repeat split; unfold generate.
  - intros ->. reflexivity.
  - intros -> ->. reflexivity.
  - intros -> -> Hf. cbn [negb]. unfold_handler.
    destruct w as [rs [|[msg|] fs] cs]; try discriminate;
      cbn [rows faults calls hd tl fst snd];
      eexists; cbn [rows faults calls hd tl fst snd];
      (split; [reflexivity|]);
      repeat split; intros ->; reflexivity.
Qed.

Lemma generate_contract_witness :
  exists r,
    fst (generate env0 1000 5 7 (JString "a@b.com") JUndefined
           (JString "admin") (world_of fresh_license [])) =
      respond 200 (Created r)
    /\ is_used r = false /\ status r = "active" /\ expires_at r = None
    /\ plan_duration r = Some "30 days" /\ created_at r = 1000.
Proof.
  destruct (generate_contract env0 1000 5 7 (JString "a@b.com") JUndefined
              (JString "admin") (world_of fresh_license []))
    as (_ & _ & H).
  destruct (H eq_refl eq_refl eq_refl)
    as (r & Hr & _ & _ & Hu & Hs & Hx & _ & Hp & Hc).
  exists r. repeat split; auto.
Defined.

Ltac verify_found H :=
  let He := fresh "He" in
  let Hk := fresh "Hk" in
  let Hf := fresh "Hf" in
  let Hr := fresh "Hr" in
  destruct H as (He & Hk & Hf & Hr);
  unfold verify; rewrite He, Hk; cbn [negb orb];
  unfold_handler; rewrite Hf, Hr; cbn [Store.single].

Ltac validate_found H :=
  let c := fresh "c" in
  let Hc := fresh "Hc" in
  let Hf := fresh "Hf" in
  let Hr := fresh "Hr" in
  destruct H as (c & Hc & Hf & Hr);
  unfold validate_token; unfold_handler;
  rewrite Hc, Hf, Hr; cbn [Store.single].

(** C4.  A license whose status is "revoked" or "suspended" is refused:
    [/verify] answers 403 "License revoked" and [/validate-token] answers 403
    with [valid: false], reason REVOKED, whatever [is_used] and [expires_at]
    are (also when [expires_at] has passed) and without a write. *)
Theorem revoked_takes_precedence (env : Env) (now clock : Z)
    (e k : JsValue) (token : Credential) (w : World) (r : License) :
  status r = "revoked" \/ status r = "suspended" ->
  (finds_by_credentials w e k r ->
     fst (verify env now clock e k w) =
       respond 403 (Message false "License revoked")
     /\ rows (snd (verify env now clock e k w)) = rows w)
  /\ (finds_by_token env clock w token r ->
       fst (validate_token env clock now (Bearer token) w) =
         respond 403 (Validity false (Some "REVOKED"))
       /\ rows (snd (validate_token env clock now (Bearer token) w)) = rows w).
Proof.
  intros Hs.
  assert (Hrev : revoked_or_suspended r = true).
  { unfold revoked_or_suspended. destruct Hs as [-> | ->]; reflexivity. }
  split; intros H.
  - verify_found H. rewrite Hrev. split; reflexivity.
  - validate_found H. rewrite Hrev. split; reflexivity.
Qed.

Lemma revoked_takes_precedence_witness :
  (fst (verify env0 5000 5000 the_email the_key
          (world_of revoked_license [])) =
     respond 403 (Message false "License revoked")
   /\ rows (snd (verify env0 5000 5000 the_email the_key
                   (world_of revoked_license []))) = [revoked_license])
  /\ (fst (validate_token env0 5000 5000 (Bearer session)
             (world_of revoked_license [])) =
        respond 403 (Validity false (Some "REVOKED"))
      /\ rows (snd (validate_token env0 5000 5000 (Bearer session)
                      (world_of revoked_license []))) = [revoked_license]).
Proof.
  destruct (revoked_takes_precedence env0 5000 5000 the_email the_key
              session (world_of revoked_license []) revoked_license)
    as [Hv Ht].
  - left. reflexivity.
  - split.
    + apply Hv. repeat split.
    + apply Ht. exists (mkClaims 1 "a@b.com" 1 86401). repeat split.
Defined.

(** *** Store facts *)

Lemma filter_single_In {A} (p : A -> bool) (l : list A) (r : A) :
  filter p l = [r] -> In r l /\ p r = true.
Proof.
  intros H. apply filter_In. rewrite H. now left.
Qed.

Lemma update_where_In i f rs r :
  In r rs -> id r = i -> In (f r) (Store.update_where i f rs).
Proof.
  intros Hin Hid. unfold Store.update_where.
  apply in_map_iff. exists r. split; [|exact Hin].
  unfold Store.by_id. now rewrite Hid, Z.eqb_refl.
Qed.

Lemma succeed_2 fs :
  succeed 2 fs = true -> hd None fs = None /\ hd None (tl fs) = None.
Proof.
  destruct fs as [|[m|] [|[m'|] fs]]; simpl; intros H;
    try discriminate; now split.
Qed.

Lemma found_by_id_id i rs r : filter (Store.by_id i) rs = [r] -> id r = i.
Proof.
  intros H. apply filter_single_In in H as [_ H].
  now apply Z.eqb_eq in H.
Qed.



(** C7.  When the lookup succeeds and the write that marks the license
    "expired" fails, the caller still gets the expiry denial, 403 "License
    expired" from [/verify] and 401 with reason EXPIRED from
    [/validate-token], and the table is unchanged. *)
Theorem lazy_write_failure_still_denies (env : Env) (now clock : Z)
    (e k : JsValue) (token : Credential) (w : World) (r : License)
    (t : Z) (msg : string) :
  revoked_or_suspended r = false -> status r <> "expired" ->
  expires_at r = Some t -> t < now ->
  hd None (tl (faults w)) = Some msg ->
  (finds_by_credentials w e k r -> is_used r = true ->
     let out := verify env now clock e k w in
     fst out = respond 403 (Message false "License expired")
     /\ rows (snd out) = rows w)
  /\ (finds_by_token env clock w token r ->
       let out := validate_token env clock now (Bearer token) w in
       fst out = respond 401 (Validity false (Some "EXPIRED"))
       /\ rows (snd out) = rows w).
Proof.
  intros Hrev Hs Hx Ht Hfail.
  apply String.eqb_neq in Hs. apply Z.ltb_lt in Ht.
  split.
  - intros H Hu. verify_found H.
    rewrite Hrev, Hu, Hx. cbn [andb is_set new_Date]. rewrite Ht.
    unfold_handler. rewrite Hs. cbn [negb]. cbv iota.
    unfold_handler. rewrite Hfail. now split.
  - intros H. validate_found H.
    rewrite Hrev, Hx. cbn [new_Date]. rewrite Ht. cbn [orb]. cbv iota.
    unfold_handler. rewrite Hs. cbn [negb]. cbv iota.
    unfold_handler. rewrite Hfail. now split.
Qed.

Lemma lazy_write_failure_still_denies_witness :
  (fst (verify env0 5000 5000 the_email the_key
          (world_of lapsed_license [None; Some "connection reset"])) =
     respond 403 (Message false "License expired")
   /\ rows (snd (verify env0 5000 5000 the_email the_key
                   (world_of lapsed_license
                      [None; Some "connection reset"]))) =
      [lapsed_license])
  /\ (fst (validate_token env0 5000 5000 (Bearer session)
             (world_of lapsed_license [None; Some "connection reset"])) =
        respond 401 (Validity false (Some "EXPIRED"))
      /\ rows (snd (validate_token env0 5000 5000 (Bearer session)
                      (world_of lapsed_license
                         [None; Some "connection reset"]))) =
         [lapsed_license]).
Proof.
  destruct (lazy_write_failure_still_denies env0 5000 5000 the_email the_key
              session (world_of lapsed_license [None; Some "connection reset"])
              lapsed_license 1000 "connection reset")
    as [Hv Ht]; try reflexivity; try discriminate.
  split.
  - apply Hv; [repeat split | reflexivity].
  - apply Ht. exists (mkClaims 1 "a@b.com" 1 86401). repeat split.
Defined.

(** C10, as the code has it.  For a credential that verifies and a record
    with [expires_at = null] whose status is neither "revoked" nor
    "suspended", [/validate-token] reads the [null] as the epoch: after the
    epoch it answers 401 with [valid: false], reason EXPIRED, and, unless the
    status is "expired" already, writes [status = "expired"] (the write
    succeeding). *)
Theorem null_expiry_reads_as_epoch (env : Env) (now clock : Z)
    (token : Credential) (w : World) (r : License) :
  expires_at r = None -> 0 < now -> revoked_or_suspended r = false ->
  finds_by_token env clock w token r ->
  let out := validate_token env clock now (Bearer token) w in
  fst out = respond 401 (Validity false (Some "EXPIRED"))
  /\ (status r <> "expired" -> hd None (tl (faults w)) = None ->
      rows (snd out) =
        Store.update_where (id r) (Store.set_status "expired") (rows w)
      /\ calls (snd out) =
         (calls w ++ [SelectById (id r); UpdateStatus (id r) "expired"])%list)
  /\ (status r = "expired" -> rows (snd out) = rows w).
Proof.
  intros Hx Hnow Hrev H.
  assert (Hid : exists c, jwt_verify token (JWT_SECRET env) clock = Ret c
                          /\ claim_id c = id r).
  { destruct H as (c & Hc & _ & Hr). exists c. split; [exact Hc|].
    symmetry. now apply found_by_id_id with (rs := rows w). }
  apply Z.ltb_lt in Hnow.
  validate_found H.
  destruct Hid as (c' & Hc' & Hid). rewrite Hc in Hc'.
  injection Hc' as <-.
  rewrite Hrev, Hx. cbn [new_Date]. rewrite Hnow. cbn [orb]. cbv iota.
  unfold_handler.
  destruct (status r =? "expired")%string eqn:Hs; cbn [negb]; cbv iota;
    unfold_handler.
  - apply String.eqb_eq in Hs. repeat split; congruence.
  - apply String.eqb_neq in Hs.
    destruct (hd None (tl (faults w))) eqn:Hw; cbn [fst snd rows calls].
    + repeat split; congruence.
    + rewrite <- app_assoc, Hid. repeat split; congruence.
Qed.

Lemma null_expiry_reads_as_epoch_witness :
  fst (validate_token env0 5000 5000 (Bearer session)
         (world_of fresh_license [])) =
    respond 401 (Validity false (Some "EXPIRED"))
  /\ rows (snd (validate_token env0 5000 5000 (Bearer session)
                  (world_of fresh_license []))) =
     [Store.set_status "expired" fresh_license].
Proof.
  destruct (null_expiry_reads_as_epoch env0 5000 5000 session
              (world_of fresh_license []) fresh_license)
    as (H1 & H2 & _); try reflexivity.
  - exists (mkClaims 1 "a@b.com" 1 86401). repeat split.
  - split; [exact H1|].
    destruct H2 as [H2 _]; [discriminate | reflexivity | exact H2].
Defined.

(** C10 as stated fails when the never-activated record is revoked: the
    answer is 403 with reason REVOKED, and nothing is written. *)
Lemma validate_token_null_expiry_revoked :
  expires_at revoked_unactivated_license = None
  /\ jwt_verify session (JWT_SECRET env0) 5000 =
       Ret (mkClaims 1 "a@b.com" 1 86401)
  /\ validate_token env0 5000 5000 (Bearer session)
       (world_of revoked_unactivated_license []) =
     (respond 403 (Validity false (Some "REVOKED")),
      mkWorld [revoked_unactivated_license] [] [SelectById 1]).
Proof. repeat split. Qed.

(** *** What one call of [/verify] does to the store *)

Ltac quiet_leaf :=
  cbn [fst snd rows calls]; rewrite <- ?app_assoc; cbn [app];
  eexists; split;
  [ reflexivity
  | left; split;
    [ intros ? ? Hin; cbn [In] in Hin; intuition discriminate
    | first [ left; reflexivity | right; eexists; reflexivity ] ] ].

(** One call either issues no activation write and leaves the table alone
    or marks rows "expired"; or it found exactly one record that is not
    revoked and not [activated], its store calls are the lookup and the
    activation write for that record, and the table is as before or has that
    write applied. *)
Lemma verify_effect (env : Env) (now clock : Z) (e k : JsValue) (w : World) :
  let out := verify env now clock e k w in
  exists new,
    calls (snd out) = (calls w ++ new)%list
    /\ ((no_activation new
         /\ (rows (snd out) = rows w
             \/ exists i,
                  rows (snd out) =
                    Store.update_where i (Store.set_status "expired")
                      (rows w)))
        \/ exists r d,
             filter (Store.by_credentials (text_of e) (text_of k)) (rows w)
               = [r]
             /\ revoked_or_suspended r = false
             /\ activated r = false
             /\ getDurationMs (plan_duration r) = JS.Finite d
             /\ new = activation_of (now + d) e k r
             /\ (rows (snd out) = rows w
                 \/ rows (snd out) =
                      Store.update_where (id r)
                        (Store.set_activated (now + d)) (rows w))).
Proof.
  cbv zeta. unfold verify.
  destruct (negb (truthy e) || negb (truthy k)).
  { exists []. rewrite app_nil_r. split; [reflexivity|].
    left. split; [intros ? ? [] | now left]. }
  unfold_handler.
  destruct (hd None (faults w)); [quiet_leaf|].
  destruct (filter _ (rows w)) as [|r [|r' l]] eqn:Hr; cbn [Store.single];
    try quiet_leaf.
  destruct (revoked_or_suspended r) eqn:Hrev; [quiet_leaf|].
  fold (activated r).
  destruct (activated r) eqn:Hg.
  - destruct (new_Date (expires_at r) <? now).
    + destruct (status r =? "expired")%string; cbn [negb]; cbv iota;
        unfold_handler; [quiet_leaf|].
      destruct (hd None (tl (faults w))); quiet_leaf.
    + destruct (jwt_sign _ _ _ _); quiet_leaf.
  - rewrite toISOString_add.
    destruct (getDurationMs (plan_duration r)) as [d| |] eqn:Hd;
      [|quiet_leaf|quiet_leaf].
    destruct (Z.abs (now + d) <=? TIME_CLIP); [|quiet_leaf].
    unfold_handler.
    exists (activation_of (now + d) e k r).
    unfold activation_of.
    destruct (hd None (tl (faults w))); cbn [fst snd calls rows].
    { rewrite <- app_assoc. split; [reflexivity|].
      right. exists r, d. repeat split; auto. }
    destruct (Store.single _); cbn [fst snd calls rows].
    2:{ rewrite <- app_assoc. split; [reflexivity|].
        right. exists r, d. repeat split; auto. }
    destruct (jwt_sign _ _ _ _); cbn [fst snd calls rows];
      rewrite <- app_assoc; (split; [reflexivity|]);
      right; exists r, d; repeat split; auto.
Qed.

Lemma update_where_ids i f rs :
  (forall r, id (f r) = id r) ->
  map id (Store.update_where i f rs) = map id rs.
Proof.
  intros Hf. unfold Store.update_where. rewrite map_map.
  apply map_ext. intros r. destruct (Store.by_id i r); [apply Hf | reflexivity].
Qed.

Lemma set_status_keeps i s rs :
  map expires_at (Store.update_where i (Store.set_status s) rs) =
    map expires_at rs
  /\ map is_used (Store.update_where i (Store.set_status s) rs) =
       map is_used rs.
Proof.
  unfold Store.update_where. rewrite !map_map.
  split; apply map_ext; intros r; now destruct (Store.by_id i r).
Qed.

Lemma NoDup_map_eq {A B} (f : A -> B) (l : list A) (x y : A) :
  NoDup (map f l) -> In x l -> In y l -> f x = f y -> x = y.
Proof.
  induction l as [|a l IH]; simpl; intros Hnd Hx Hy Hf; [contradiction|].
  inversion Hnd as [|? ? Hnotin Hnd']; subst.
  destruct Hx as [->|Hx], Hy as [->|Hy]; auto.
  - exfalso. apply Hnotin. rewrite Hf. now apply in_map.
  - exfalso. apply Hnotin. rewrite <- Hf. now apply in_map.
Qed.

Lemma activated_true r :
  activated r = true <-> is_used r = true /\ exists t, expires_at r = Some t.
Proof.
  unfold activated. rewrite andb_true_iff. split; intros [Hu Hx].
  - split; [exact Hu|]. destruct (expires_at r) as [t|]; [now exists t|].
    discriminate.
  - destruct Hx as [t ->]. now split.
Qed.

(** *** Two calls of [/verify] *)

Lemma filter_update_where (p : License -> bool) i f rs :
  (forall r, p (f r) = p r) ->
  filter p (Store.update_where i f rs) =
    Store.update_where i f (filter p rs).
Proof.
  intros Hp. unfold Store.update_where.
  induction rs as [|r rs IH]; simpl; [reflexivity|].
  destruct (Store.by_id i r) eqn:Hi; [rewrite Hp|];
    destruct (p r); simpl; rewrite ?Hi, IH; reflexivity.
Qed.

Lemma update_where_single i f r :
  id r = i -> Store.update_where i f [r] = [f r].
Proof.
  intros <-. unfold Store.update_where, Store.by_id. simpl.
  now rewrite Z.eqb_refl.
Qed.

(** The first activation, all store calls and the signing succeeding *)
Lemma verify_first_activation (env : Env) (now clock : Z) (e k : JsValue)
    (w : World) (r : License) (key : string) (d : Z) :
  finds_by_credentials w e k r ->
  filter (Store.by_id (id r)) (rows w) = [r] ->
  revoked_or_suspended r = false -> activated r = false ->
  getDurationMs (plan_duration r) = JS.Finite d ->
  Z.abs (now + d) <= TIME_CLIP ->
  hd None (tl (faults w)) = None ->
  usable (JWT_SECRET env) = Some key ->
  verify env now clock e k w =
    (respond 200 (Token (token_at key r clock)),
     mkWorld
       (Store.update_where (id r) (Store.set_activated (now + d)) (rows w))
       (tl (tl (faults w)))
       (calls w ++ activation_of (now + d) e k r)).
Proof.
  intros H Hid Hrev Hg Hd Hclip Hok Hkey.
  apply Z.leb_le in Hclip.
  verify_found H. rewrite Hrev. fold (activated r). rewrite Hg.
  rewrite toISOString_add, Hd, Hclip. unfold_handler. rewrite Hok.
  rewrite filter_update_where by reflexivity.
  rewrite Hid, update_where_single by reflexivity.
  cbn [Store.single Store.set_activated id email].
  unfold jwt_sign. rewrite Hkey. unfold_handler.
  unfold token_at, activation_of. now rewrite <- app_assoc.
Qed.

(** A call on an activated record that has not expired *)
Lemma verify_again (env : Env) (now clock : Z) (e k : JsValue)
    (w : World) (r : License) (t : Z) (key : string) :
  finds_by_credentials w e k r ->
  revoked_or_suspended r = false ->
  is_used r = true -> expires_at r = Some t -> now <= t ->
  usable (JWT_SECRET env) = Some key ->
  verify env now clock e k w =
    (respond 200 (Token (token_at key r clock)),
     mkWorld (rows w) (tl (faults w))
       (calls w ++ [SelectByCredentials (text_of e) (text_of k)])).
Proof.
  intros H Hrev Hu Hx Ht Hkey.
  assert (Hlt : (t <? now) = false) by (apply Z.ltb_ge; lia).
  verify_found H. rewrite Hrev, Hu, Hx. cbn [andb is_set new_Date].
  rewrite Hlt. unfold jwt_sign. rewrite Hkey. now unfold_handler.
Qed.

Lemma succeed_3 fs :
  succeed 3 fs = true ->
  hd None fs = None /\ hd None (tl fs) = None
  /\ hd None (tl (tl fs)) = None.
Proof.
  destruct fs as [|[m|] [|[m'|] [|[m''|] fs]]]; simpl; intros H;
    try discriminate; now repeat split.
Qed.

Lemma token_at_differs key r clock1 clock2 :
  token_at key r clock2 <> token_at key r clock1 <->
  clock2 / 1000 <> clock1 / 1000.
Proof.
  unfold token_at. split; intros H Heq; apply H.
  - now rewrite Heq.
  - now injection Heq.
Qed.

(** C5, as the code has it.  Two calls of [/verify] with valid credentials
    for a license that is not used and not revoked, the store calls and the
    signing succeeding and [now + parse(plan_duration)] being a date
    ([parse(plan_duration)] is the finite [d]): the
    first call sets [is_used] and a fresh [expires_at]; the second, made
    before [expires_at] has passed, issues a lookup and no write, so the
    table is unchanged, and returns a credential again, which differs from
    the first exactly when the two calls are signed in different seconds. *)
Theorem verify_twice (env : Env) (now1 clock1 now2 clock2 : Z)
    (e k : JsValue) (w : World) (r : License) (key : string) (d : Z) :
  finds_by_credentials w e k r ->
  filter (Store.by_id (id r)) (rows w) = [r] ->
  is_used r = false -> revoked_or_suspended r = false ->
  getDurationMs (plan_duration r) = JS.Finite d ->
  Z.abs (now1 + d) <= TIME_CLIP ->
  succeed 3 (faults w) = true ->
  usable (JWT_SECRET env) = Some key ->
  now2 <= now1 + d ->
  let t := now1 + d in
  let out1 := verify env now1 clock1 e k w in
  let out2 := verify env now2 clock2 e k (snd out1) in
  fst out1 = respond 200 (Token (token_at key r clock1))
  /\ rows (snd out1) =
     Store.update_where (id r) (Store.set_activated t) (rows w)
  /\ In (Store.set_activated t r) (rows (snd out1))
  /\ is_used (Store.set_activated t r) = true
  /\ expires_at (Store.set_activated t r) = Some t
  /\ fst out2 = respond 200 (Token (token_at key r clock2))
  /\ rows (snd out2) = rows (snd out1)
  /\ calls (snd out2) =
     (calls (snd out1)
        ++ [SelectByCredentials (text_of e) (text_of k)])%list
  /\ (token_at key r clock2 <> token_at key r clock1 <->
      clock2 / 1000 <> clock1 / 1000).
Proof.
  intros H Hid Hu Hrev Hd Hclip Hok Hkey Hnow2 t out1 out2.
  apply succeed_3 in Hok as (Hf1 & Hf2 & Hf3).
  assert (Hin : In r (rows w)).
  { now apply filter_single_In in Hid as [Hin _]. }
  assert (Hact : activated r = false).
  { unfold activated. now rewrite Hu. }
  assert (H1 : out1 = _) by
    exact (verify_first_activation env now1 clock1 e k w r key d
             H Hid Hrev Hact Hd Hclip Hf2 Hkey).
  fold t in H1.
  assert (H' : finds_by_credentials (snd out1) e k (Store.set_activated t r)).
  { destruct H as (He & Hk & _ & Hr). rewrite H1.
    unfold finds_by_credentials. cbn [snd rows faults].
    repeat split; auto.
    rewrite filter_update_where by reflexivity.
    rewrite Hr. now apply update_where_single. }
  assert (H2 : out2 = _) by
    exact (verify_again env now2 clock2 e k (snd out1)
             (Store.set_activated t r) t key H' eq_refl eq_refl eq_refl
             Hnow2 Hkey).
  rewrite H2. rewrite H1. cbn [fst snd rows calls].
  repeat split; try apply token_at_differs.
  now apply update_where_In.
Qed.

Lemma verify_twice_witness :
  let out1 := verify env0 1000 1000 the_email the_key
                (world_of fresh_license []) in
  let out2 := verify env0 60000 60000 the_email the_key (snd out1) in
  fst out1 = respond 200 (Token (token_at "s3cret" fresh_license 1000))
  /\ fst out2 = respond 200 (Token (token_at "s3cret" fresh_license 60000))
  /\ rows (snd out2) = rows (snd out1)
  /\ token_at "s3cret" fresh_license 60000
     <> token_at "s3cret" fresh_license 1000.
Proof.
  cbv zeta.
  destruct (verify_twice env0 1000 1000 60000 60000 the_email the_key
              (world_of fresh_license []) fresh_license "s3cret" 86400000)
    as (H1 & _ & _ & _ & _ & H2 & H3 & _ & H4);
    try reflexivity.
  - repeat split.
  - vm_compute. discriminate.
  - vm_compute. discriminate.
  - repeat split; auto. apply H4. vm_compute. discriminate.
Defined.

(** C5 as stated fails on the credential: two calls signed within the same
    second return the same credential. *)
Lemma verify_twice_same_second_same_credential :
  let out1 := verify env0 1000 1000 the_email the_key
                (world_of fresh_license []) in
  let out2 := verify env0 1500 1500 the_email the_key (snd out1) in
  is_used fresh_license = false
  /\ fst out1 =
     respond 200 (Token (mkJwt (mkClaims 1 "a@b.com" 1 86401) "s3cret"))
  /\ map is_used (rows (snd out1)) = [true]
  /\ fst out2 = fst out1.
Proof. repeat split. Qed.

(** *** Generated keys *)

(** The digit loop of the rendering ends by itself: [delta] grows at least
    35-fold with every digit, and once it has outgrown the denominator the
    remainder is below it, so more fuel changes nothing. *)
Lemma fraction_digits_fuel (n m : nat) (fraction delta : Z)
    (written : list Z) :
  0 < delta ->
  Radix36.denominator <= 35 ^ Z.of_nat (S n) * delta ->
  Radix36.fraction_digits (S n + m) fraction delta written =
    Radix36.fraction_digits (S n) fraction delta written.
Proof.
  revert fraction delta written.
  induction n as [|n IH]; intros fraction delta written Hd Hbig;
    pose proof (round53_lower (36 * delta) ltac:(lia)) as Hgrow.
  - cbn [Nat.add Radix36.fraction_digits]. cbv zeta.
    assert (Hmod : JS.round53 (36 * fraction) mod Radix36.denominator
                   < Radix36.denominator).
    { apply Z.mod_pos_bound. reflexivity. }
    change (35 ^ Z.of_nat 1) with 35 in Hbig.
    assert (Hstop : (JS.round53 (36 * delta)
                     <=? JS.round53 (36 * fraction) mod Radix36.denominator)
                    = false) by (apply Z.leb_gt; lia).
    rewrite Hstop. reflexivity.
  - change (S (S n) + m)%nat with (S (S n + m)).
    cbn [Radix36.fraction_digits]. cbv zeta.
    rewrite IH; [reflexivity | lia |].
    rewrite Nat2Z.inj_succ, Z.pow_succ_r in Hbig by lia.
    assert (0 <= 35 ^ Z.of_nat (S n)) by (apply Z.pow_nonneg; lia).
    nia.
Qed.

(** Every outcome of [Math.random()] is rendered within the fuel of
    [Radix36.toString36]. *)
Lemma toString36_fuel (k : Z) (m : nat) :
  0 < k ->
  Radix36.fraction_digits (64 + m) (k * 2 ^ 53) (2 ^ Z.log2 k) [] =
    Radix36.fraction_digits 64 (k * 2 ^ 53) (2 ^ Z.log2 k) [].
Proof.
  intros Hk.
  assert (Hpos : 0 < 2 ^ Z.log2 k).
  { apply Z.pow_pos_nonneg; [lia | apply Z.log2_nonneg]. }
  apply (fraction_digits_fuel 63 m); [exact Hpos|].
  assert (Hden : Radix36.denominator <= 35 ^ Z.of_nat 64)
    by (vm_compute; discriminate).
  nia.
Qed.

Lemma toString36_one_half : Radix36.toString36 one_half = "0.i".
Proof. vm_compute. reflexivity. Qed.

Lemma key_part_one_half : key_part one_half = "I".
Proof. vm_compute. reflexivity. Qed.

Lemma key_part_zero : key_part 0 = "".
Proof. vm_compute. reflexivity. Qed.

Lemma key_part_full : key_part 3141592653589793 = "CK0Z".
Proof. vm_compute. reflexivity. Qed.

(** The rounding of the digit loop shows in the renderings: short ones where
    exact arithmetic would go on, and long ones where it would stop. *)
Lemma toString36_rounded :
  Radix36.toString36 8756999275442631 = "0.z"
  /\ Radix36.toString36 4065749663598364 = "0.g9"
  /\ Radix36.toString36 4176949654397636 = "0.gozzzzzzzzu"
  /\ Radix36.toString36 4086599661873228 = "0.gc000000009"
  /\ key_part 8756999275442631 = "Z"
  /\ key_part 4176949654397636 = "GOZZ".
Proof. repeat split; vm_compute; reflexivity. Qed.

(** C1 fails on the code.  When [Math.random()] returns one half, whose
    base-36 rendering "0.i" has a single digit after the point, a request to
    [/generate] that passes the secret and email checks inserts and returns
    a record whose [license_key] is "PRO-I-I", which is not of the form
    [PRO-XXXX-XXXX]. *)
Theorem generate_short_key (env : Env) (now : Z) (e p a : JsValue)
    (w : World) :
  strict_eq_env a (ADMIN_SECRET env) = true -> truthy e = true ->
  succeed 1 (faults w) = true ->
  exists r,
    fst (generate env now one_half one_half e p a w) =
      respond 200 (Created r)
    /\ In r (rows (snd (generate env now one_half one_half e p a w)))
    /\ license_key r = "PRO-I-I"
    /\ matches_key_format (license_key r) = false.
Proof.
  intros Ha He Hf. unfold generate. rewrite Ha, He. cbn [negb].
  rewrite key_part_one_half. unfold_handler.
  destruct w as [rs [|[msg|] fs] cs]; try discriminate;
    cbn [rows faults calls hd tl fst snd];
    eexists; (split; [reflexivity|]);
    (split; [apply in_or_app; right; now left | split; reflexivity]).
Qed.

Lemma generate_short_key_witness :
  exists r,
    fst (generate env0 1000 one_half one_half the_email JUndefined
           (JString "admin") (world_of fresh_license [])) =
      respond 200 (Created r)
    /\ license_key r = "PRO-I-I"
    /\ matches_key_format (license_key r) = false.
Proof.
  destruct (generate_short_key env0 1000 the_email JUndefined
              (JString "admin") (world_of fresh_license [])
              eq_refl eq_refl eq_refl)
    as (r & H1 & _ & H2 & H3).
  exists r. now repeat split.
Defined.

(** ** Further properties of the duration parser *)

Section DurationParserEdges.

Import JS.

Lemma span_all p s : all_chars p (fst (span p s)) = true.
Proof.
  induction s as [|c s IH]; simpl; [reflexivity|].
  destruct (p c) eqn:Hc; [|reflexivity].
  destruct (span p s) as [a b]. simpl in *. now rewrite Hc.
Qed.

Lemma match_here_digits s m1 m2 :
  match_here s = Some (m1, m2) -> all_chars is_digit m1 = true.
Proof.
  unfold match_here. pose proof (span_all is_digit s) as Hd.
  destruct (span is_digit s) as [ds r1]. simpl in Hd.
  destruct ds as [|d ds]; [discriminate|].
  destruct (span is_space r1) as [x r2].
  destruct (alternation_ci unit_words r2); [|discriminate].
  intros H. injection H as <- _. exact Hd.
Qed.

Lemma regex_match_digits s m1 m2 :
  regex_match s = Some (m1, m2) -> all_chars is_digit m1 = true.
Proof.
  induction s as [|c s IH]; cbn [regex_match].
  - destruct (match_here "") eqn:Hm; [|discriminate].
    intros H. injection H as ->. now apply match_here_digits in Hm.
  - destruct (match_here (String c s)) eqn:Hm; [|exact IH].
    intros H. injection H as ->. now apply match_here_digits in Hm.
Qed.

Lemma parseInt_acc_nonneg s acc :
  all_chars is_digit s = true -> 0 <= acc -> 0 <= parseInt_acc acc s.
Proof.
  revert acc.
  induction s as [|c s IH]; cbn [parseInt_acc all_chars];
    intros acc Hs Hacc; [exact Hacc|].
  apply andb_true_iff in Hs as [Hc Hs]. apply IH; [exact Hs|].
  unfold is_digit in Hc. apply andb_true_iff in Hc as [Hlo _].
  apply Z.leb_le in Hlo. lia.
Qed.

Lemma to_number_nonnegative z : 0 <= z -> nonnegative (to_number z).
Proof.
  intros H. destruct (to_number_nonneg z H) as [-> | (t & -> & Ht)];
    [exact I | exact Ht].
Qed.

Lemma mul_nonnegative x n :
  nonnegative x -> 0 <= n -> nonnegative (x ** n).
Proof.
  destruct x as [z| |]; cbn [mul nonnegative]; intros Hx Hn;
    [|exact I | exact Hx].
  apply to_number_nonnegative. nia.
Qed.

Lemma parseInt_nonnegative ds :
  all_chars is_digit ds = true -> nonnegative (parseInt ds).
Proof.
  intros H. apply to_number_nonnegative.
  apply parseInt_acc_nonneg; [exact H | lia].
Qed.

Lemma defaultMs_seconds : defaultMs = 1000 * (30 * 24 * 60 * 60).
Proof. reflexivity. Qed.

Lemma scaled_nonnegative value u :
  nonnegative value -> nonnegative (scaled value u).
Proof.
  intros H. unfold scaled.
  repeat (destruct (_ =? _)%string;
          [repeat apply mul_nonnegative; (exact H || lia)|]).
  cbn [nonnegative]. rewrite defaultMs_seconds. lia.
Qed.

(** A product that stays below [2^53] is exact. *)
Lemma mul_below x n t :
  nonnegative x -> 1 <= n -> x ** n = Finite t -> t < 2 ^ 53 ->
  exists z, x = Finite z /\ 0 <= z < 2 ^ 53 /\ t = z * n.
Proof.
  destruct x as [z| |]; cbn [mul nonnegative]; try discriminate.
  intros Hz Hn Ht Hlt. exists z.
  destruct (Z.lt_ge_cases (z * n) (2 ^ 53)) as [Hs | Hl].
  - rewrite to_number_small in Ht by (rewrite Z.abs_eq by nia; exact Hs).
    injection Ht as <-. repeat split; [exact Hz | nia].
  - exfalso.
    assert (Habs : 2 ^ 53 <= Z.abs (z * n)) by (rewrite Z.abs_eq by nia; lia).
    pose proof (to_number_large _ _ Habs Ht) as Hbig.
    pose proof (to_number_nonnegative (z * n) ltac:(nia)) as Hpos.
    rewrite Ht in Hpos. cbn [nonnegative] in Hpos. lia.
Qed.

Lemma scaled_seconds value u t :
  nonnegative value -> scaled value u = Finite t -> t < 2 ^ 53 ->
  exists q, 0 <= q /\ t = 1000 * q.
Proof.
  intros Hv. unfold scaled.
  repeat (destruct (_ =? _)%string;
          [intros Ht Hlt;
           apply mul_below in Ht;
           [destruct Ht as (z & _ & Hz & ->); exists z; lia
           |repeat apply mul_nonnegative; (exact Hv || lia) | lia
           |exact Hlt] |]).
  intros Ht _. injection Ht as <-.
  exists (30 * 24 * 60 * 60). split; [lia | reflexivity].
Qed.

(** The duration [getDurationMs] returns is a [scaled] quantity or the
    default. *)
Lemma getDurationMs_cases (durationStr : option string) :
  getDurationMs durationStr = Finite defaultMs
  \/ exists ds w,
       all_chars is_digit ds = true
       /\ getDurationMs durationStr = scaled (parseInt ds) (toLowerCase w).
Proof.
  unfold getDurationMs. destruct durationStr as [s|]; [|now left].
  destruct ((s =? "")%string || (toLowerCase s =? "null")%string);
    [now left|].
  destruct (regex_match s) as [[m1 m2]|] eqn:Hm; [|now left].
  right. exists m1, m2. split; [|reflexivity].
  now apply regex_match_digits in Hm.
Qed.

Lemma getDurationMs_nonnegative (durationStr : option string) :
  nonnegative (getDurationMs durationStr).
Proof.
  destruct (getDurationMs_cases durationStr) as [-> | (ds & w & Hds & ->)].
  - cbn [nonnegative]. rewrite defaultMs_seconds. lia.
  - apply scaled_nonnegative. now apply parseInt_nonnegative.
Qed.

Lemma getDurationMs_nonneg (durationStr : option string) (d : Z) :
  getDurationMs durationStr = Finite d -> 0 <= d.
Proof.
  intros H. pose proof (getDurationMs_nonnegative durationStr) as Hn.
  now rewrite H in Hn.
Qed.

Lemma getDurationMs_seconds (durationStr : option string) (d : Z) :
  getDurationMs durationStr = Finite d -> d < 2 ^ 53 ->
  exists q, 0 <= q /\ d = 1000 * q.
Proof.
  destruct (getDurationMs_cases durationStr) as [-> | (ds & w & Hds & ->)].
  - intros H _. injection H as <-.
    exists (30 * 24 * 60 * 60). split; [lia | reflexivity].
  - apply scaled_seconds. now apply parseInt_nonnegative.
Qed.

(** X2.  The duration is never negative, whatever the [plan_duration]
    column holds: it is [Infinity] or a finite number of milliseconds that
    is not below zero, so the expiry date a first activation computes is
    never earlier than the activation; and a duration below [2^53]
    milliseconds, where every product of the [switch] is exact, is a whole
    number of seconds. *)
Theorem getDurationMs_never_negative (durationStr : option string)
    (now : Z) :
  getDurationMs durationStr = Infinity
  \/ exists d,
       getDurationMs durationStr = Finite d
       /\ 0 <= d /\ now <= now + d
       /\ (d < 2 ^ 53 -> exists q, 0 <= q /\ d = 1000 * q).
Proof.
  pose proof (getDurationMs_nonnegative durationStr) as Hn.
  destruct (getDurationMs durationStr) as [d| |] eqn:Hd;
    [right | now left | destruct Hn].
  cbn [nonnegative] in Hn. exists d.
  repeat split; [exact Hn | lia |].
  now apply (getDurationMs_seconds durationStr).
Qed.

Lemma getDurationMs_never_negative_witness :
  exists d,
    getDurationMs (Some "90 minutes") = Finite d
    /\ 0 <= d /\ 1000 <= 1000 + d /\ exists q, 0 <= q /\ d = 1000 * q.
Proof.
  destruct (getDurationMs_never_negative (Some "90 minutes") 1000)
    as [H | (d & Hd & H0 & H1 & H2)]; [discriminate H|].
  exists d. split; [exact Hd|]. split; [exact H0|]. split; [exact H1|].
  apply H2. vm_compute in Hd. injection Hd as <-. reflexivity.
Defined.

(** Beyond [2^53] the products are rounded: of 9007199254740993 seconds
    the odd unit is lost, 72057594037929 seconds are not a whole number of
    seconds any more, and a quantity of 400 digits is [Infinity]. *)
Lemma getDurationMs_rounds :
  getDurationMs (Some "9007199254740993 seconds") =
    Finite 9007199254740992000
  /\ getDurationMs (Some "72057594037929 seconds") =
     Finite 72057594037928992
  /\ getDurationMs (Some (many_nines ++ " days")) = Infinity.
Proof. repeat split; vm_compute; reflexivity. Qed.

Lemma app_empty_r s : s ++ "" = s.
Proof. induction s as [|c s IH]; simpl; [reflexivity | now rewrite IH]. Qed.

Lemma alternation_ci_empty : alternation_ci unit_words "" = None.
Proof. reflexivity. Qed.

Lemma match_here_blanks ws :
  all_chars is_space ws = true -> match_here ws = None.
Proof.
  intros Hws. unfold match_here. destruct ws as [|c ws]; [reflexivity|].
  simpl in Hws. apply andb_true_iff in Hws as [Hc _].
  cbn [span]. now rewrite (space_not_digit _ Hc).
Qed.

Lemma regex_match_blanks ws :
  all_chars is_space ws = true -> regex_match ws = None.
Proof.
  induction ws as [|c ws IH]; intros Hws; [reflexivity|].
  cbn [regex_match]. rewrite (match_here_blanks _ Hws).
  simpl in Hws. apply andb_true_iff in Hws as [_ Hws]. now apply IH.
Qed.

Lemma match_here_number ds ws :
  all_chars is_digit ds = true -> all_chars is_space ws = true ->
  match_here (ds ++ ws) = None.
Proof.
  intros Hds Hws. unfold match_here.
  rewrite (span_app is_digit ds ws Hds).
  - destruct ds as [|d ds]; [reflexivity|].
    rewrite <- (app_empty_r ws) at 1.
    now rewrite (span_app is_space ws "" Hws).
  - destruct ws as [|c ws]; [reflexivity|].
    simpl in *. apply andb_true_iff in Hws as [Hc _].
    now rewrite (space_not_digit _ Hc).
Qed.

Lemma regex_match_number ds ws :
  all_chars is_digit ds = true -> all_chars is_space ws = true ->
  regex_match (ds ++ ws) = None.
Proof.
  intros Hds Hws. induction ds as [|d ds IH].
  - now apply regex_match_blanks.
  - change (String d ds ++ ws) with (String d (ds ++ ws)).
    cbn [regex_match].
    change (String d (ds ++ ws)) with (String d ds ++ ws).
    rewrite (match_here_number _ _ Hds Hws).
    simpl in Hds. apply andb_true_iff in Hds as [_ Hds]. now apply IH.
Qed.

(** X3.  A quantity without a unit is not read as days: text without a
    digit, then an integer, then at most blanks gives the 30-day default. *)
Theorem getDurationMs_bare_number (pre ds ws : string) :
  all_chars not_digit pre = true ->
  all_chars is_digit ds = true -> all_chars is_space ws = true ->
  getDurationMs (Some (pre ++ ds ++ ws)) = Finite defaultMs.
Proof.
  intros Hpre Hds Hws. unfold getDurationMs.
  rewrite (regex_match_skip _ _ Hpre), (regex_match_number _ _ Hds Hws).
  now destruct ((_ =? "")%string || (_ =? "null")%string).
Qed.

Lemma getDurationMs_bare_number_witness :
  getDurationMs (Some "90") = Finite defaultMs
  /\ getDurationMs (Some "valid for 45  ") = Finite defaultMs.
Proof.
  split.
  - apply (getDurationMs_bare_number "" "90" ""); reflexivity.
  - apply (getDurationMs_bare_number "valid for " "45" "  "); reflexivity.
Defined.

(** [span] stops inside its first argument when it leaves a rest there. *)
Lemma span_app_stop p a b c r :
  snd (span p a) = String c r ->
  span p (a ++ b) = (fst (span p a), String c r ++ b).
Proof.
  induction a as [|x a IH]; simpl; [discriminate|].
  destruct (p x) eqn:Hx.
  - destruct (span p a) as [u v] eqn:Hs. simpl. intros Hv.
    now rewrite (IH Hv).
  - simpl. intros H. injection H as -> ->. reflexivity.
Qed.

Lemma alternation_ci_not_initial b r :
  unit_initial b = false -> alternation_ci unit_words (String b r) = None.
Proof.
  unfold unit_initial. cbv zeta. intros H.
  apply orb_false_iff in H as [H Hs]. apply orb_false_iff in H as [H Hm].
  apply orb_false_iff in H as [Hd Hh].
  unfold unit_words. cbn [alternation_ci].
  now rewrite !literal_ci_head.
Qed.

Lemma match_here_broken_run t s b r :
  after_number t = String b r -> unit_initial b = false ->
  match_here (t ++ s) = None.
Proof.
  unfold after_number. intros Hafter Hb. unfold match_here.
  destruct (snd (span is_digit t)) as [|c1 r1] eqn:H1.
  { simpl in Hafter. discriminate. }
  rewrite (span_app_stop is_digit t s c1 r1 H1).
  destruct (fst (span is_digit t)); [reflexivity|].
  rewrite (span_app_stop is_space (String c1 r1) s b r Hafter).
  change (String b r ++ s) with (String b (r ++ s)).
  now rewrite alternation_ci_not_initial.
Qed.

Lemma regex_match_broken pre s :
  runs_broken pre = true -> regex_match (pre ++ s) = regex_match s.
Proof.
  induction pre as [|c pre IH]; intros H; [reflexivity|].
  cbn [runs_broken] in H. apply andb_true_iff in H as [Hc H].
  change (String c pre ++ s) with (String c (pre ++ s)).
  cbn [regex_match].
  change (String c (pre ++ s)) with (String c pre ++ s).
  assert (Hm : match_here (String c pre ++ s) = None).
  { destruct (is_digit c) eqn:Hd.
    - destruct (after_number (String c pre)) as [|b r] eqn:Ha;
        [discriminate|].
      apply negb_true_iff in Hc.
      now apply (match_here_broken_run _ s b r).
    - unfold match_here.
      change (String c pre ++ s) with (String c (pre ++ s)).
      cbn [span]. now rewrite Hd. }
  rewrite Hm. now apply IH.
Qed.

Lemma mul_exact z n :
  0 <= z -> 0 <= n -> z * n < 2 ^ 53 -> Finite z ** n = Finite (z * n).
Proof.
  intros Hz Hn Hlt. cbn [mul]. apply to_number_small.
  rewrite Z.abs_eq by nia. exact Hlt.
Qed.

Ltac exact_products v :=
  rewrite (to_number_small v) by (rewrite Z.abs_eq by lia; lia);
  rewrite !mul_exact by lia; f_equal; lia.

(** Where every product stays below [2^53], the [switch] computes the
    quantity times the unit's milliseconds. *)
Lemma scaled_exact ds u :
  all_chars is_digit ds = true -> In u unit_words ->
  parseInt_acc 0 ds * unit_ms u < 2 ^ 53 ->
  scaled (parseInt ds) u = Finite (parseInt_acc 0 ds * unit_ms u).
Proof.
  intros Hds Hu. unfold parseInt.
  pose proof (parseInt_acc_nonneg ds 0 Hds ltac:(lia)) as Hv.
  generalize dependent (parseInt_acc 0 ds). intros v Hv.
  assert (Hp : 2 ^ 53 = 9007199254740992) by reflexivity.
  rewrite Hp. unfold unit_words in Hu.
  destruct Hu as [<-|[<-|[<-|[<-|[]]]]]; intros Hlt.
  - assert (Hms : unit_ms "day" = 86400000) by reflexivity.
    assert (Hsc : forall x, scaled x "day" = x ** 24 ** 60 ** 60 ** 1000)
      by reflexivity.
    rewrite Hms in *. rewrite Hsc. exact_products v.
  - assert (Hms : unit_ms "hour" = 3600000) by reflexivity.
    assert (Hsc : forall x, scaled x "hour" = x ** 60 ** 60 ** 1000)
      by reflexivity.
    rewrite Hms in *. rewrite Hsc. exact_products v.
  - assert (Hms : unit_ms "minute" = 60000) by reflexivity.
    assert (Hsc : forall x, scaled x "minute" = x ** 60 ** 1000)
      by reflexivity.
    rewrite Hms in *. rewrite Hsc. exact_products v.
  - assert (Hms : unit_ms "second" = 1000) by reflexivity.
    assert (Hsc : forall x, scaled x "second" = x ** 1000) by reflexivity.
    rewrite Hms in *. rewrite Hsc. exact_products v.
Qed.

(** X4.  Numbers that are not followed by a unit are passed over: when
    every number of the leading text is followed, after optional blanks, by a
    code unit that cannot start a unit word, the first integer-unit pair
    after that text decides, and gives the quantity times the unit's
    milliseconds where that stays below [2^53].  So a sign is dropped, and
    of a decimal quantity only the digits after the point count. *)
Theorem getDurationMs_passes_broken_numbers (pre ds ws w u rest : string) :
  runs_broken pre = true ->
  ds <> "" -> all_chars is_digit ds = true ->
  all_chars is_space ws = true ->
  In u unit_words -> toLowerCase w = u ->
  getDurationMs (Some (pre ++ ds ++ ws ++ w ++ rest)) =
    scaled (parseInt ds) u
  /\ (parseInt_acc 0 ds * unit_ms u < 2 ^ 53 ->
      getDurationMs (Some (pre ++ ds ++ ws ++ w ++ rest)) =
        Finite (parseInt_acc 0 ds * unit_ms u)).
Proof.
  intros Hpre Hne Hds Hws Hu Hw.
  assert (Hg : getDurationMs (Some (pre ++ ds ++ ws ++ w ++ rest)) =
               scaled (parseInt ds) u).
  { rewrite <- Hw. apply getDurationMs_of_match.
    rewrite (regex_match_broken _ _ Hpre).
    destruct ds as [|d ds]; [congruence|].
    change (String d ds ++ ws ++ w ++ rest)
      with (String d (ds ++ ws ++ w ++ rest)).
    cbn [regex_match].
    change (String d (ds ++ ws ++ w ++ rest))
      with (String d ds ++ ws ++ w ++ rest).
    now rewrite (match_here_pair _ ws w u rest Hne Hds Hws Hu Hw). }
  split; [exact Hg|].
  intros Hlt. rewrite Hg. now apply scaled_exact.
Qed.

Lemma getDurationMs_passes_broken_numbers_witness :
  getDurationMs (Some "1.5 days") = Finite (5 * 86400000)
  /\ getDurationMs (Some "-3 hours") = Finite (3 * 3600000)
  /\ getDurationMs (Some "2 x 45 minutes") = Finite (45 * 60000).
Proof.
  split; [|split].
  - apply (getDurationMs_passes_broken_numbers "1." "5" " " "day" "day" "s");
      try reflexivity; [discriminate | simpl; auto].
  - apply (getDurationMs_passes_broken_numbers "-" "3" " " "hour" "hour" "s");
      try reflexivity; [discriminate | simpl; auto].
  - apply (getDurationMs_passes_broken_numbers "2 x " "45" " " "minute"
             "minute" "s");
      try reflexivity; [discriminate | simpl; auto].
Defined.

(** *** The first integer-unit pair of an input *)

Lemma span_split p s : s = fst (span p s) ++ snd (span p s).
Proof.
  induction s as [|c s IH]; cbn [span]; [reflexivity|].
  destruct (p c); [|reflexivity].
  destruct (span p s) as [a b]. cbn [fst snd append] in *. now f_equal.
Qed.

Lemma literal_ci_sound k s m :
  literal_ci k s = Some m ->
  exists rest, s = m ++ rest /\ toLowerCase m = k.
Proof.
  revert s m. induction k as [|a k IH]; intros s m H.
  - destruct s; injection H as <-; eexists; split; reflexivity.
  - destruct s as [|c s]; [discriminate|]. cbn [literal_ci] in H.
    destruct (Ascii.eqb (lower_char c) a) eqn:Hc; [|discriminate].
    apply Ascii.eqb_eq in Hc.
    destruct (literal_ci k s) as [m'|] eqn:Hm; [|discriminate].
    injection H as <-. destruct (IH s m' Hm) as (rest & -> & Hl).
    exists rest. split; [reflexivity|].
    unfold toLowerCase in *. cbn [map_string]. now rewrite Hc, Hl.
Qed.

Lemma alternation_ci_sound ks s m :
  alternation_ci ks s = Some m ->
  exists rest, s = m ++ rest /\ In (toLowerCase m) ks.
Proof.
  induction ks as [|k ks IH]; cbn [alternation_ci]; [discriminate|].
  destruct (literal_ci k s) as [m'|] eqn:Hl.
  - intros H. injection H as <-.
    destruct (literal_ci_sound _ _ _ Hl) as (rest & Hs & Hk).
    exists rest. split; [exact Hs | now left].
  - intros H. destruct (IH H) as (rest & Hs & Hin).
    exists rest. split; [exact Hs | now right].
Qed.

(** What the pattern matches at the start of an input is an integer-unit
    pair the input starts with. *)
Lemma match_here_sound s ds w :
  match_here s = Some (ds, w) ->
  exists ws rest, s = ds ++ ws ++ w ++ rest /\ unit_pair ds ws w.
Proof.
  unfold match_here.
  pose proof (span_split is_digit s) as Hs1.
  pose proof (span_all is_digit s) as Hd.
  destruct (span is_digit s) as [ds' r1]. cbn [fst snd] in *.
  destruct ds' as [|d ds']; [discriminate|].
  pose proof (span_split is_space r1) as Hs2.
  pose proof (span_all is_space r1) as Hsp.
  destruct (span is_space r1) as [ws r2]. cbn [fst snd] in *.
  destruct (alternation_ci unit_words r2) as [m|] eqn:Ha; [|discriminate].
  intros H. injection H as <- <-.
  destruct (alternation_ci_sound _ _ _ Ha) as (rest & Hr2 & Hin).
  exists ws, rest. split; [now rewrite Hs1, Hs2, Hr2|].
  repeat split; [discriminate | exact Hd | exact Hsp | exact Hin].
Qed.

(** And an input that starts with an integer-unit pair is matched at its
    start, with that pair. *)
Lemma match_here_unit_pair ds ws w rest :
  unit_pair ds ws w -> match_here (ds ++ ws ++ w ++ rest) = Some (ds, w).
Proof.
  intros (Hne & Hds & Hws & Hin).
  now apply (match_here_pair ds ws w (toLowerCase w) rest).
Qed.

Lemma regex_match_here s m : match_here s = Some m -> regex_match s = Some m.
Proof. intros H. destruct s; cbn [regex_match]; now rewrite H. Qed.

Lemma regex_match_found pre s m :
  match_here s = Some m -> regex_match (pre ++ s) <> None.
Proof.
  intros H. induction pre as [|c pre IH].
  - cbn [append]. now rewrite (regex_match_here _ _ H).
  - change (String c pre ++ s) with (String c (pre ++ s)).
    cbn [regex_match].
    destruct (match_here (String c (pre ++ s))); [discriminate | exact IH].
Qed.

Lemma no_pair_from_empty s : no_pair_from "" s.
Proof.
  intros pre1 pre2 ds ws w rest Hpre Hne _ _.
  destruct pre1; [|discriminate]. cbn [append] in Hpre. congruence.
Qed.

Lemma no_pair_from_tail c pre s :
  no_pair_from (String c pre) s -> no_pair_from pre s.
Proof.
  intros H pre1 pre2 ds ws w rest Hpre Hne Hup.
  apply (H (String c pre1) pre2); [|exact Hne | exact Hup].
  cbn [append]. now rewrite Hpre.
Qed.

(** No pair starts in text without a digit. *)
Lemma no_pair_from_no_digit pre s :
  all_chars not_digit pre = true -> no_pair_from pre s.
Proof.
  induction pre as [|c pre IH]; intros Hpre; [apply no_pair_from_empty|].
  cbn [all_chars] in Hpre. apply andb_true_iff in Hpre as [Hc Hpre].
  intros pre1 pre2 ds ws w rest Heq Hne Hup Hs.
  destruct pre1 as [|c1 pre1].
  - cbn [append] in Heq. subst pre2.
    destruct Hup as (Hds & Hd & _).
    destruct ds as [|d ds]; [congruence|].
    cbn [append] in Hs. injection Hs as -> _.
    cbn [all_chars] in Hd. apply andb_true_iff in Hd as [Hd _].
    unfold not_digit in Hc. now rewrite Hd in Hc.
  - cbn [append] in Heq. injection Heq as _ Heq.
    exact (IH Hpre pre1 pre2 ds ws w rest Heq Hne Hup Hs).
Qed.

(** The leftmost match is the first pair of the input. *)
Lemma first_pair_match s pre ds ws w rest :
  first_pair s pre ds ws w rest -> regex_match s = Some (ds, w).
Proof.
  intros (-> & Hup & Hfirst).
  pose proof (match_here_unit_pair ds ws w rest Hup) as Hm.
  induction pre as [|c pre IH].
  - cbn [append]. now apply regex_match_here.
  - change (String c pre ++ ds ++ ws ++ w ++ rest)
      with (String c (pre ++ ds ++ ws ++ w ++ rest)).
    cbn [regex_match].
    destruct (match_here (String c (pre ++ ds ++ ws ++ w ++ rest)))
      as [[ds' w']|] eqn:Hc.
    + exfalso.
      destruct (match_here_sound _ _ _ Hc) as (ws' & rest' & Hs & Hup').
      apply (Hfirst "" (String c pre) ds' ws' w' rest');
        [reflexivity | discriminate | exact Hup' | exact Hs].
    + apply IH. now apply (no_pair_from_tail c).
Qed.

Lemma regex_match_first s ds w :
  regex_match s = Some (ds, w) ->
  exists pre ws rest, first_pair s pre ds ws w rest.
Proof.
  induction s as [|c s IH].
  - cbn [regex_match]. change (match_here "") with (@None (string * string)).
    discriminate.
  - cbn [regex_match].
    destruct (match_here (String c s)) as [m|] eqn:Hc.
    + intros H. injection H as ->.
      destruct (match_here_sound _ _ _ Hc) as (ws & rest & Hs & Hup).
      exists "", ws, rest.
      split; [exact Hs | split; [exact Hup | apply no_pair_from_empty]].
    + intros H. destruct (IH H) as (pre & ws & rest & Hs & Hup & Hfirst).
      exists (String c pre), ws, rest.
      split; [cbn [append]; now rewrite Hs | split; [exact Hup|]].
      intros pre1 pre2 ds' ws' w' rest' Heq Hne Hup' Hs'.
      destruct pre1 as [|c1 pre1].
      * cbn [append] in Heq. subst pre2.
        pose proof (match_here_unit_pair ds' ws' w' rest' Hup') as Hm.
        rewrite <- Hs' in Hm. cbn [append] in Hm. rewrite <- Hs in Hm.
        congruence.
      * cbn [append] in Heq. injection Heq as _ Heq.
        exact (Hfirst pre1 pre2 ds' ws' w' rest' Heq Hne Hup' Hs').
Qed.

Lemma regex_match_none s : regex_match s = None -> no_pair s.
Proof.
  intros H pre ds ws w rest Hup Hs. subst s.
  now apply (regex_match_found pre _ _
               (match_here_unit_pair ds ws w rest Hup)).
Qed.

Lemma no_pair_no_match s : no_pair s -> regex_match s = None.
Proof.
  intros H. destruct (regex_match s) as [[ds w]|] eqn:Hm; [|reflexivity].
  destruct (regex_match_first _ _ _ Hm) as (pre & ws & rest & Hs & Hup & _).
  destruct (H pre ds ws w rest Hup Hs).
Qed.

(** C6.  The duration parser, on binary64 numbers as the code computes
    them.  [null] and "null" give 30 days, in milliseconds; "5 days" gives
    [5 * 86400000 = 432000000], "2 hours" 7200000, "gibberish" the 30-day
    fallback.  Inputs that differ in letter case only parse alike.  Every
    input string either holds no integer-unit pair (an integer, optional
    blanks and a word that starts with a unit name, in any case) and gives
    the fallback, or has a first pair, which alone decides the result,
    whatever precedes and follows it (plural endings, further pairs): the
    result is what the [switch] computes from the pair's integer and unit,
    which is the integer times the unit's milliseconds where that stays
    below [2^53]. *)
Theorem getDurationMs_contract :
  getDurationMs None = Finite (30 * 86400000)
  /\ getDurationMs (Some "null") = Finite (30 * 86400000)
  /\ getDurationMs (Some "5 days") = Finite (5 * 86400000)
  /\ getDurationMs (Some "5 days") = Finite 432000000
  /\ getDurationMs (Some "2 hours") = Finite 7200000
  /\ getDurationMs (Some "gibberish") = Finite (30 * 86400000)
  /\ (forall s s', toLowerCase s = toLowerCase s' ->
        getDurationMs (Some s) = getDurationMs (Some s'))
  /\ (forall s,
        no_pair s \/ exists pre ds ws w rest, first_pair s pre ds ws w rest)
  /\ (forall s, no_pair s ->
        getDurationMs (Some s) = Finite (30 * 86400000))
  /\ (forall s pre ds ws w rest,
        first_pair s pre ds ws w rest ->
        getDurationMs (Some s) = scaled (parseInt ds) (toLowerCase w)
        /\ (parseInt_acc 0 ds * unit_ms (toLowerCase w) < 2 ^ 53 ->
            getDurationMs (Some s) =
              Finite (parseInt_acc 0 ds * unit_ms (toLowerCase w)))).
Proof.
  do 6 (split; [reflexivity|]).
  split; [|split; [|split]].
  - intros s s' H.
    now rewrite <- (getDurationMs_lower s), H, getDurationMs_lower.
  - intros s. destruct (regex_match s) as [[ds w]|] eqn:Hm.
    + right. destruct (regex_match_first _ _ _ Hm) as (pre & ws & rest & H).
      now exists pre, ds, ws, w, rest.
    + left. now apply regex_match_none.
  - intros s H. apply getDurationMs_no_match. now apply no_pair_no_match.
  - intros s pre ds ws w rest H.
    pose proof (getDurationMs_of_match _ _ _ (first_pair_match _ _ _ _ _ _ H))
      as Hg.
    split; [exact Hg|].
    intros Hlt. rewrite Hg. destruct H as (_ & (_ & Hds & _ & Hin) & _).
    now apply scaled_exact.
Qed.

Lemma getDurationMs_contract_witness :
  getDurationMs (Some "5 DAYS") = getDurationMs (Some "5 days")
  /\ getDurationMs (Some "about 12  Hours and 30 minutes") =
     Finite (12 * 3600000).
Proof.
  destruct getDurationMs_contract
    as (_ & _ & _ & _ & _ & _ & Hcase & _ & _ & Hfirst).
  split.
  - apply Hcase. reflexivity.
  - apply (Hfirst _ "about " "12" "  " "Hour" "s and 30 minutes").
    + split; [reflexivity | split].
      * repeat split; [discriminate | simpl; auto].
      * apply no_pair_from_no_digit. reflexivity.
    + vm_compute. reflexivity.
Defined.

End DurationParserEdges.

(** ** The shape of generated keys *)

Lemma carry_digits written :
  Forall base36_digit written -> Forall base36_digit (fst (Radix36.carry written)).
Proof.
  induction written as [|d ds IH]; intros H; [constructor|].
  inversion H as [|? ? Hd Hds]; subst. cbn [Radix36.carry].
  destruct (d + 1 <? 36) eqn:Hlt.
  - cbn [fst]. constructor; [|exact Hds].
    apply Z.ltb_lt in Hlt. unfold base36_digit in *. lia.
  - now apply IH.
Qed.

(** The remainder of the digit loop is a binary64 value below one on the
    grid of [Math.random()]: a multiple of [2^53] over the denominator.  So
    36 times the remainder is rounded to less than 36, and every digit
    written is a base-36 digit. *)
Lemma fraction_digits_digits fuel fraction delta written :
  0 <= fraction < Radix36.denominator -> (2 ^ 53 | fraction) ->
  Forall base36_digit written ->
  Forall base36_digit
    (fst (Radix36.fraction_digits fuel fraction delta written)).
Proof.
  revert fraction delta written.
  induction fuel as [|fuel IH]; intros fraction delta written Hf Hg Hw;
    [exact Hw|].
  cbn [Radix36.fraction_digits]. cbv zeta.
  assert (Hden : 0 < Radix36.denominator) by reflexivity.
  assert (Hg36 : (2 ^ 53 | 36 * fraction)) by (now apply Z.divide_mul_r).
  pose proof (round53_nonneg (36 * fraction) ltac:(lia)) as Hr0.
  pose proof (round53_digit fraction Hf Hg) as Hr1.
  pose proof (round53_grid (36 * fraction) ltac:(lia) Hg36) as Hrg.
  fold Radix36.denominator in Hr1.
  set (r := JS.round53 (36 * fraction)) in *.
  assert (Hd : base36_digit (r / Radix36.denominator)).
  { unfold base36_digit. split.
    - apply Z.div_pos; lia.
    - apply Z.div_lt_upper_bound; lia. }
  assert (Hm : 0 <= r mod Radix36.denominator < Radix36.denominator)
    by (apply Z.mod_pos_bound; lia).
  assert (Hmg : (2 ^ 53 | r mod Radix36.denominator)).
  { rewrite Z.mod_eq by lia. apply Z.divide_sub_r; [exact Hrg|].
    apply Z.divide_mul_l. exists (2 ^ 53). reflexivity. }
  destruct (_ && _).
  - apply carry_digits. now constructor.
  - destruct (_ <=? _).
    + apply IH; [exact Hm | exact Hmg | now constructor].
    + now constructor.
Qed.

(** A rendering is ["0"], ["1"], or ["0."] followed by base-36 digits. *)
Lemma toString36_shape k :
  k < 2 ^ 53 ->
  Radix36.toString36 k = "0" \/ Radix36.toString36 k = "1"
  \/ exists ds, Forall base36_digit ds
                /\ Radix36.toString36 k = "0." ++ Radix36.string_of_digits ds.
Proof.
  intros Hk. unfold Radix36.toString36.
  destruct (k <=? 0) eqn:H0; [now left|]. apply Z.leb_gt in H0.
  pose proof (fraction_digits_digits 64 (k * 2 ^ 53) (2 ^ Z.log2 k) [])
    as Hd.
  destruct (Radix36.fraction_digits 64 (k * 2 ^ 53) (2 ^ Z.log2 k) [])
    as [written carried].
  destruct carried; [now right; left|].
  destruct written as [|d ds]; [now left|].
  right. right. exists (rev (d :: ds)). split; [|reflexivity].
  apply Forall_rev. apply Hd; [| |constructor].
  - change Radix36.denominator with (2 ^ 53 * 2 ^ 53). nia.
  - exists k. reflexivity.
Qed.

Lemma digit_char_upper_alnum d :
  base36_digit d ->
  is_upper_alnum (JS.upper_char (Radix36.digit_char d)) = true.
Proof.
  intros [Hlo Hhi].
  rewrite <- (Z2Nat.id d Hlo).
  assert (Hn : (Z.to_nat d < 36)%nat) by lia.
  generalize dependent (Z.to_nat d). clear. intros n Hn.
  do 36 (destruct n as [|n]; [reflexivity|]). lia.
Qed.

Lemma string_of_digits_upper_alnum ds :
  Forall base36_digit ds ->
  all_chars is_upper_alnum (JS.toUpperCase (Radix36.string_of_digits ds))
  = true.
Proof.
  induction 1 as [|d ds Hd Hds IH]; [reflexivity|].
  unfold JS.toUpperCase in *. cbn [Radix36.string_of_digits JS.map_string all_chars].
  now rewrite (digit_char_upper_alnum _ Hd), IH.
Qed.

Lemma substring_0_all_chars p n s :
  all_chars p s = true -> all_chars p (String.substring 0 n s) = true.
Proof.
  revert s. induction n as [|n IH]; intros [|c s] H; try reflexivity.
  cbn [String.substring all_chars] in *.
  apply andb_true_iff in H as [Hc H]. now rewrite Hc, (IH s H).
Qed.

Lemma substring_0_length n s :
  String.length (String.substring 0 n s) = Nat.min n (String.length s).
Proof.
  revert s. induction n as [|n IH]; intros [|c s]; try reflexivity.
  cbn [String.substring String.length Nat.min]. now rewrite IH.
Qed.

Lemma toUpperCase_substring_0 n s :
  JS.toUpperCase (String.substring 0 n s) =
    String.substring 0 n (JS.toUpperCase s).
Proof.
  unfold JS.toUpperCase. revert s.
  induction n as [|n IH]; intros [|c s]; try reflexivity.
  cbn [String.substring JS.map_string]. now rewrite IH.
Qed.

Lemma toUpperCase_length s :
  String.length (JS.toUpperCase s) = String.length s.
Proof.
  unfold JS.toUpperCase.
  induction s as [|c s IH]; [reflexivity|].
  cbn [JS.map_string String.length]. now rewrite IH.
Qed.

(** The part a rendering ["0." ++ t] contributes: the first four code units
    of [t], in upper case. *)
Lemma key_part_of_fraction k t :
  Radix36.toString36 k = "0." ++ t ->
  key_part k = String.substring 0 4 (JS.toUpperCase t).
Proof.
  intros H. unfold key_part, JS.substring. rewrite H.
  destruct t as [|a [|b [|c [|d [|e t]]]]]; reflexivity.
Qed.

Lemma string_of_digits_length_app t :
  String.length ("0." ++ t) = S (S (String.length t)).
Proof. reflexivity. Qed.

(** A key part has at most four code units, all of them digits or
    upper-case letters, and has four exactly when the rendering has at least
    four digits after the point. *)
Lemma key_part_shape k :
  k < 2 ^ 53 ->
  (String.length (key_part k) <= 4)%nat
  /\ all_chars is_upper_alnum (key_part k) = true
  /\ String.length (key_part k) =
     Nat.min 4 (String.length (Radix36.toString36 k) - 2).
Proof.
  intros Hk.
  destruct (toString36_shape k Hk) as [H | [H | (ds & Hds & H)]].
  - unfold key_part. rewrite H. repeat split. auto.
  - unfold key_part. rewrite H. repeat split. auto.
  - rewrite (key_part_of_fraction _ _ H), H.
    rewrite substring_0_length, toUpperCase_length.
    rewrite string_of_digits_length_app.
    repeat split.
    + apply Nat.le_min_l.
    + apply substring_0_all_chars.
      now apply string_of_digits_upper_alnum.
    + f_equal. lia.
Qed.

Lemma dash_not_alnum : is_upper_alnum "-" = false.
Proof. reflexivity. Qed.

(** A key built from two parts of at most four alphanumerics is of the form
    [PRO-XXXX-XXXX] exactly when both parts are full. *)
Lemma matches_key_format_parts p1 p2 :
  (String.length p1 <= 4)%nat -> (String.length p2 <= 4)%nat ->
  all_chars is_upper_alnum p1 = true -> all_chars is_upper_alnum p2 = true ->
  matches_key_format ("PRO-" ++ p1 ++ "-" ++ p2) =
    (String.length p1 =? 4)%nat && (String.length p2 =? 4)%nat.
Proof.
  intros H1 H2 A1 A2.
  destruct p1 as [|a1 [|b1 [|c1 [|d1 [|e1 p1]]]]];
    cbn [String.length] in H1; try lia;
    destruct p2 as [|a2 [|b2 [|c2 [|d2 [|e2 p2]]]]];
    cbn [String.length] in H2; try lia;
    cbn [all_chars] in A1, A2;
    repeat match goal with
           | H : _ && _ = true |- _ => apply andb_true_iff in H as [? ?]
           end;
    unfold matches_key_format, four_upper_alnum;
    cbn [append String.substring String.length Nat.eqb all_chars
         String.eqb Ascii.eqb Bool.eqb andb];
    repeat match goal with
           | H : is_upper_alnum _ = true |- _ => rewrite H; clear H
           end;
    rewrite ?dash_not_alnum;
    cbn [andb]; rewrite ?andb_false_r; reflexivity.
Qed.

(** X1.  A request to [/generate] that passes its checks, the insert
    succeeding, stores the key [PRO-<part>-<part>], where each part is made
    of at most four digits or upper-case letters; the key has the form
    [PRO-XXXX-XXXX] exactly when both base-36 renderings have at least four
    digits after the point. *)
Theorem generated_key_shape (env : Env) (now random1 random2 : Z)
    (e p a : JsValue) (w : World) :
  random1 < 2 ^ 53 -> random2 < 2 ^ 53 ->
  strict_eq_env a (ADMIN_SECRET env) = true -> truthy e = true ->
  succeed 1 (faults w) = true ->
  exists r,
    fst (generate env now random1 random2 e p a w) = respond 200 (Created r)
    /\ license_key r = "PRO-" ++ key_part random1 ++ "-" ++ key_part random2
    /\ (String.length (key_part random1) <= 4)%nat
    /\ (String.length (key_part random2) <= 4)%nat
    /\ all_chars is_upper_alnum (key_part random1) = true
    /\ all_chars is_upper_alnum (key_part random2) = true
    /\ (matches_key_format (license_key r) = true <->
        (6 <= String.length (Radix36.toString36 random1))%nat
        /\ (6 <= String.length (Radix36.toString36 random2))%nat).
Proof.
  intros Hr1 Hr2 Ha He Hf.
  destruct (key_part_shape _ Hr1) as (L1 & A1 & E1).
  destruct (key_part_shape _ Hr2) as (L2 & A2 & E2).
  assert (Hkey : exists r,
             fst (generate env now random1 random2 e p a w) =
               respond 200 (Created r)
             /\ license_key r =
                "PRO-" ++ key_part random1 ++ "-" ++ key_part random2).
  { unfold generate. rewrite Ha, He. cbn [negb]. unfold_handler.
    destruct w as [rs [|[msg|] fs] cs]; try discriminate;
      cbn [rows faults calls hd tl fst snd]; eexists; split; reflexivity. }
  destruct Hkey as (r & Hresp & Hk). exists r.
  repeat (split; [assumption|]).
  rewrite Hk, (matches_key_format_parts _ _ L1 L2 A1 A2).
  rewrite andb_true_iff, !Nat.eqb_eq. lia.
Qed.

Lemma generated_key_shape_witness :
  exists r,
    fst (generate env0 1000 pi_draw one_half the_email JUndefined
           (JString "admin") (world_of fresh_license [])) =
      respond 200 (Created r)
    /\ license_key r = "PRO-" ++ key_part pi_draw ++ "-" ++ key_part one_half
    /\ all_chars is_upper_alnum (key_part pi_draw) = true.
Proof.
  destruct (generated_key_shape env0 1000 pi_draw one_half the_email
              JUndefined (JString "admin") (world_of fresh_license []))
    as (r & H1 & H2 & _ & _ & H3 & _); try reflexivity.
  exists r. now repeat split.
Defined.

Lemma verify_table_step (env : Env) (now clock : Z) (e k : JsValue)
    (w : World) :
  table_step (rows w) (rows (snd (verify env now clock e k w))).
Proof.
  unfold verify.
  destruct (negb (truthy e) || negb (truthy k)); [now left|].
  unfold_handler.
  destruct (hd None (faults w)); [now left|].
  destruct (filter _ (rows w)) as [|r [|r' l]] eqn:Hr; cbn [Store.single];
    try (now left).
  apply filter_single_In in Hr as [Hin _].
  destruct (revoked_or_suspended r) eqn:Hrev; [now left|].
  fold (activated r).
  destruct (activated r) eqn:Hg.
  - destruct (new_Date (expires_at r) <? now).
    + destruct (status r =? "expired")%string; cbn [negb]; cbv iota;
        unfold_handler; [now left|].
      destruct (hd None (tl (faults w))); cbn [fst snd rows]; [now left|].
      right. left. exists r. now repeat split.
    + destruct (jwt_sign _ _ _ _); now left.
  - rewrite toISOString_add.
    destruct (getDurationMs (plan_duration r)) as [d| |];
      [|now left | now left].
    destruct (Z.abs _ <=? TIME_CLIP); [|now left].
    unfold_handler.
    destruct (hd None (tl (faults w))); cbn [fst snd rows]; [now left|].
    assert (Hact : activates (rows w)
                     (Store.update_where (id r)
                        (Store.set_activated (now + d)) (rows w))
                     r (now + d))
      by now repeat split.
    destruct (Store.single _); cbn [fst snd rows].
    + destruct (jwt_sign _ _ _ _); cbn [fst snd rows];
        right; right; left; eauto.
    + right; right; left; eauto.
Qed.

Lemma validate_table_step (env : Env) (clock now : Z) (h : Authorization)
    (w : World) :
  table_step (rows w) (rows (snd (validate_token env clock now h w))).
Proof.
  unfold validate_token. destruct h as [| |token]; try (now left).
  unfold_handler.
  destruct (jwt_verify token (JWT_SECRET env) clock) as [c|]; [|now left].
  destruct (hd None (faults w)); [now left|].
  destruct (filter _ (rows w)) as [|r [|r' l]] eqn:Hr; cbn [Store.single];
    try (now left).
  apply filter_single_In in Hr as [Hin _].
  destruct (revoked_or_suspended r) eqn:Hrev; [now left|].
  destruct ((new_Date (expires_at r) <? now)
            || (status r =? "expired")%string); [|now left].
  destruct (status r =? "expired")%string; cbn [negb]; cbv iota;
    unfold_handler; [now left|].
  destruct (hd None (tl (faults w))); cbn [fst snd rows]; [now left|].
  right. left. exists r. now repeat split.
Qed.

Lemma generate_table_step (env : Env) (now random1 random2 : Z)
    (e p a : JsValue) (w : World) :
  table_step (rows w)
    (rows (snd (generate env now random1 random2 e p a w))).
Proof.
  unfold generate.
  destruct (negb (strict_eq_env a (ADMIN_SECRET env))); [now left|].
  destruct (negb (truthy e)); [now left|].
  unfold_handler.
  destruct (hd None (faults w)); cbn [fst snd rows]; [now left|].
  right. right. right. eexists. now repeat split.
Qed.

Lemma handle_table_step (env : Env) (req : Request) (w : World) :
  table_step (rows w) (rows (snd (handle env req w))).
Proof.
  destruct req; cbn [handle].
  - apply verify_table_step.
  - apply validate_table_step.
  - apply generate_table_step.
Qed.

(** *** What no sequence of requests does *)

Lemma same_record_refl r : same_record r r.
Proof. now repeat split. Qed.

Lemma same_record_trans r1 r2 r3 :
  same_record r1 r2 -> same_record r2 r3 -> same_record r1 r3.
Proof.
  intros (A1 & A2 & A3 & A4 & A5 & A6) (B1 & B2 & B3 & B4 & B5 & B6).
  repeat split; try congruence. auto.
Qed.

Lemma Forall2_same_record_refl rs : Forall2 same_record rs rs.
Proof.
  induction rs; constructor; [apply same_record_refl | assumption].
Qed.

Lemma Forall2_same_record_trans rs1 rs2 rs3 :
  Forall2 same_record rs1 rs2 -> Forall2 same_record rs2 rs3 ->
  Forall2 same_record rs1 rs3.
Proof.
  intros H. revert rs3.
  induction H as [|a b l l' Hab Hl IH]; intros rs3 H3;
    inversion H3; subst; constructor.
  - eapply same_record_trans; eassumption.
  - now apply IH.
Qed.

Lemma update_where_same_record i f rs :
  (forall r, same_record r (f r)) ->
  Forall2 same_record rs (Store.update_where i f rs).
Proof.
  intros Hf. unfold Store.update_where.
  induction rs as [|r rs IH]; simpl; constructor; [|exact IH].
  destruct (Store.by_id i r); [apply Hf | apply same_record_refl].
Qed.

Lemma table_step_keeps rs rs' :
  table_step rs rs' ->
  exists kept added,
    rs' = (kept ++ added)%list /\ Forall2 same_record rs kept.
Proof.
  intros [-> | [(r1 & _ & _ & ->) | [(r1 & t & _ & _ & _ & ->)
                                    | (r & -> & _)]]].
  - exists rs, []. rewrite app_nil_r. split; [reflexivity|].
    apply Forall2_same_record_refl.
  - eexists _, []. rewrite app_nil_r. split; [reflexivity|].
    apply update_where_same_record. intros r. now repeat split.
  - eexists _, []. rewrite app_nil_r. split; [reflexivity|].
    apply update_where_same_record. intros r. now repeat split.
  - exists rs, [r]. split; [reflexivity|]. apply Forall2_same_record_refl.
Qed.

(** X13.  Whatever requests arrive, the table only grows at its end, and
    every record that was there keeps its [id], [email], [license_key],
    [plan_duration] and [created_at]; [is_used], once true, stays true. *)
Theorem serve_keeps_records (env : Env) (reqs : list Request) (w : World) :
  exists kept added,
    rows (serve env reqs w) = (kept ++ added)%list
    /\ Forall2 same_record (rows w) kept.
Proof.
  revert w. induction reqs as [|q qs IH]; intros w.
  - exists (rows w), []. rewrite app_nil_r. split; [reflexivity|].
    apply Forall2_same_record_refl.
  - cbn [serve].
    destruct (table_step_keeps _ _ (handle_table_step env q w))
      as (kept1 & added1 & H1 & F1).
    destruct (IH (snd (handle env q w))) as (kept2 & added2 & H2 & F2).
    rewrite H1 in F2.
    apply Forall2_app_inv_l in F2 as (k2a & k2b & Fa & Fb & ->).
    exists k2a, (k2b ++ added2)%list. split.
    + now rewrite H2, app_assoc.
    + eapply Forall2_same_record_trans; eassumption.
Qed.

Lemma next_id_fresh rs r : In r rs -> id r < Store.next_id rs.
Proof.
  unfold Store.next_id.
  induction rs as [|x rs IH]; cbn [In map fold_right];
    [intros [] | intros [-> | Hin]]; [lia|].
  specialize (IH Hin). lia.
Qed.

Lemma NoDup_snoc {A} (l : list A) (x : A) :
  NoDup l -> ~ In x l -> NoDup (l ++ [x]).
Proof.
  induction l as [|a l IH]; simpl; intros Hnd Hx.
  - constructor; [intros [] | constructor].
  - inversion Hnd as [|? ? Ha Hl]; subst. constructor.
    + intros Hin. apply in_app_or in Hin as [Hin | [-> | []]]; auto.
    + apply IH; auto.
Qed.

Lemma table_step_nodup rs rs' :
  NoDup (map id rs) -> table_step rs rs' -> NoDup (map id rs').
Proof.
  intros Hnd [-> | [(r1 & _ & _ & ->) | [(r1 & t & _ & _ & _ & ->)
                                        | (r & -> & Hid & _)]]].
  - exact Hnd.
  - now rewrite update_where_ids.
  - now rewrite update_where_ids.
  - rewrite map_app. cbn [map]. apply NoDup_snoc; [exact Hnd|].
    intros Hin. apply in_map_iff in Hin as (x & Hx & Hin).
    apply next_id_fresh in Hin. lia.
Qed.

Lemma update_where_other i f rs r :
  In r rs -> id r <> i -> In r (Store.update_where i f rs).
Proof.
  intros Hin Hid. unfold Store.update_where. apply in_map_iff.
  exists r. split; [|exact Hin].
  unfold Store.by_id. apply Z.eqb_neq in Hid. now rewrite Hid.
Qed.

Lemma table_step_protects rs rs' r :
  NoDup (map id rs) -> table_step rs rs' -> In r rs ->
  (revoked_or_suspended r = true -> In r rs')
  /\ (activated r = true -> exists r', In r' rs' /\ settled r r').
Proof.
  intros Hnd Hstep Hin.
  assert (Hsame : forall r1, In r1 rs -> id r = id r1 -> r = r1).
  { intros r1 H1 Hid. now apply (NoDup_map_eq id rs). }
  destruct Hstep as [-> | [(r1 & H1 & Hrev1 & ->)
                          | [(r1 & t & H1 & Hrev1 & Hact1 & ->)
                            | (r0 & -> & _)]]].
  - split; [auto|]. intros Hact. exists r. now repeat split.
  - split.
    + intros Hrev. apply update_where_other; [exact Hin|].
      intros Hid. apply (Hsame r1 H1) in Hid. congruence.
    + intros Hact.
      exists (if Store.by_id (id r1) r
              then Store.set_status "expired" r else r).
      split.
      * unfold Store.update_where. apply in_map_iff. now exists r.
      * destruct (Store.by_id (id r1) r); now repeat split.
  - assert (Hne : activated r = true \/ revoked_or_suspended r = true ->
                  id r <> id r1).
    { intros H Hid. apply (Hsame r1 H1) in Hid. subst r1.
      destruct H; congruence. }
    split.
    + intros Hrev. apply update_where_other; auto.
    + intros Hact. exists r. split; [|now repeat split].
      apply update_where_other; auto.
  - split.
    + intros _. apply in_or_app. now left.
    + intros Hact. exists r. split; [|now repeat split].
      apply in_or_app. now left.
Qed.

(** X14.  With unique record ids, no sequence of requests changes a revoked
    or suspended record in any field, and an activated record ([is_used]
    with [expires_at] set) keeps its [expires_at], stays activated and, once
    "expired", stays "expired"; the ids stay unique. *)
Theorem serve_protects (env : Env) (reqs : list Request) (w : World) :
  NoDup (map id (rows w)) ->
  NoDup (map id (rows (serve env reqs w)))
  /\ forall r, In r (rows w) ->
       (revoked_or_suspended r = true -> In r (rows (serve env reqs w)))
       /\ (activated r = true ->
           exists r', In r' (rows (serve env reqs w)) /\ settled r r').
Proof.
  revert w. induction reqs as [|q qs IH]; intros w Hnd.
  - split; [exact Hnd|]. intros r Hin. split; [auto|].
    intros Hact. exists r. now repeat split.
  - cbn [serve].
    pose proof (handle_table_step env q w) as Hstep.
    pose proof (table_step_nodup _ _ Hnd Hstep) as Hnd'.
    destruct (IH _ Hnd') as (Hnd'' & Hrest).
    split; [exact Hnd''|]. intros r Hin.
    destruct (table_step_protects _ _ r Hnd Hstep Hin) as (Hrev & Hact).
    split.
    + intros H. apply (Hrest r (Hrev H)). exact H.
    + intros H. destruct (Hact H) as (r1 & Hin1 & S1 & S2 & S3 & S4).
      destruct (Hrest r1 Hin1) as (_ & Hact1).
      destruct (Hact1 S2) as (r2 & Hin2 & T1 & T2 & T3 & T4).
      exists r2. split; [exact Hin2|].
      repeat split; try congruence. auto.
Qed.

(** *** When a credential is issued, and when one is accepted *)

Lemma single_data l a : Store.single l = Data a -> l = [a].
Proof.
  destruct l as [|x [|y l]]; cbn [Store.single]; intros H;
    try discriminate. now injection H as ->.
Qed.

Lemma update_where_hit i f rs a :
  (forall r, id (f r) = id r) ->
  In a (Store.update_where i f rs) -> Store.by_id i a = true ->
  exists x, In x rs /\ a = f x.
Proof.
  intros Hf Hin Hid. unfold Store.update_where in Hin.
  apply in_map_iff in Hin as (x & Hx & Hin). exists x. split; [exact Hin|].
  destruct (Store.by_id i x) eqn:Hix; [now symmetry|].
  subst a. congruence.
Qed.

Lemma jwt_sign_ret i e secret clock tk :
  jwt_sign i e secret clock = Ret tk ->
  exists key, usable secret = Some key
              /\ tk = mkJwt (mkClaims i e (clock / 1000)
                               (clock / 1000 + 24 * 60 * 60)) key.
Proof.
  unfold jwt_sign. destruct (usable secret) as [key|]; [|discriminate].
  intros H. injection H as <-. now exists key.
Qed.

Lemma verify_issues_for (env : Env) (now clock : Z) (e k : JsValue)
    (w : World) (tk : Jwt) :
  fst (verify env now clock e k w) = respond 200 (Token tk) ->
  exists r, In r (rows (snd (verify env now clock e k w)))
            /\ issued_for env now clock tk r.
Proof.
  unfold verify.
  destruct (negb (truthy e) || negb (truthy k)); [discriminate|].
  unfold_handler.
  destruct (hd None (faults w)); [discriminate|].
  destruct (filter _ (rows w)) as [|r [|r' l]] eqn:Hr; cbn [Store.single];
    try discriminate.
  apply filter_single_In in Hr as [Hin _].
  destruct (revoked_or_suspended r) eqn:Hrev; [discriminate|].
  fold (activated r).
  destruct (activated r) eqn:Hg.
  - destruct (new_Date (expires_at r) <? now) eqn:Hlt.
    + destruct (status r =? "expired")%string; cbn [negb]; cbv iota;
        unfold_handler; [discriminate|].
      destruct (hd None (tl (faults w))); discriminate.
    + destruct (jwt_sign _ _ _ _) as [tk'|] eqn:Hs; [|discriminate].
      cbn [fst snd rows]. intros H. injection H as ->.
      apply jwt_sign_ret in Hs as (key & Hkey & ->).
      apply activated_true in Hg as (Hu & t & Hx).
      rewrite Hx in Hlt. cbn [new_Date] in Hlt. apply Z.ltb_ge in Hlt.
      exists r. split; [exact Hin|]. unfold issued_for. cbn.
      repeat split; auto. now exists t.
  - rewrite toISOString_add.
    destruct (getDurationMs (plan_duration r)) as [d| |] eqn:Hd;
      [|discriminate | discriminate].
    destruct (Z.abs _ <=? TIME_CLIP); [|discriminate].
    unfold_handler.
    destruct (hd None (tl (faults w))); [discriminate|].
    destruct (Store.single _) as [a|] eqn:Ha; [|discriminate].
    destruct (jwt_sign _ _ _ _) as [tk'|] eqn:Hs; [|discriminate].
    cbn [fst snd rows]. intros H. injection H as ->.
    apply jwt_sign_ret in Hs as (key & Hkey & ->).
    apply single_data in Ha.
    apply filter_single_In in Ha as [Hina Hida].
    destruct (update_where_hit (id r) (Store.set_activated (now + d))
                (rows w) a (fun _ => eq_refl) Hina Hida)
      as (x & _ & ->).
    exists (Store.set_activated (now + d) x).
    split; [exact Hina|]. unfold issued_for. cbn.
    repeat split; auto.
    exists (now + d). split; [reflexivity|].
    pose proof (getDurationMs_nonneg (plan_duration r) d Hd). lia.
Qed.

(** X7.  Whenever [/verify] answers with a credential, the table then holds
    a record with the credential's [id] and [email] that is used, is neither
    revoked nor suspended and expires no earlier than [now]; the credential
    is signed with the configured secret and lasts 24 hours from the second
    it was signed in. *)
Theorem verify_token_sound (env : Env) (now clock : Z) (e k : JsValue)
    (w : World) (tk : Jwt) :
  fst (verify env now clock e k w) = respond 200 (Token tk) ->
  exists r, In r (rows (snd (verify env now clock e k w)))
            /\ issued_for env now clock tk r
            /\ activated r = true.
Proof.
  intros H.
  destruct (verify_issues_for env now clock e k w tk H) as (r & Hin & Hr).
  exists r. split; [exact Hin|]. split; [exact Hr|].
  destruct Hr as (_ & _ & _ & _ & _ & Hu & _ & t & Hx & _).
  apply activated_true. split; [exact Hu | now exists t].
Qed.

Lemma verify_token_sound_witness :
  exists r,
    In r (rows (snd (verify env0 1000 1000 the_email the_key
                       (world_of fresh_license []))))
    /\ issued_for env0 1000 1000 (token_at "s3cret" fresh_license 1000) r
    /\ activated r = true.
Proof.
  apply (verify_token_sound env0 1000 1000 the_email the_key
           (world_of fresh_license [])).
  reflexivity.
Defined.

(** X9.  [/validate-token] answers [valid: true] exactly when the header
    carries a credential that verifies, the lookup by its [id] succeeds and
    finds one record, and that record is neither revoked, suspended nor
    "expired" and its [expires_at] has not passed; it then writes nothing. *)
Theorem validate_token_valid_iff (env : Env) (clock now : Z)
    (h : Authorization) (w : World) :
  (fst (validate_token env clock now h w) = respond 200 (Validity true None)
   <-> exists token c r,
         h = Bearer token
         /\ jwt_verify token (JWT_SECRET env) clock = Ret c
         /\ hd None (faults w) = None
         /\ filter (Store.by_id (claim_id c)) (rows w) = [r]
         /\ revoked_or_suspended r = false
         /\ status r <> "expired"
         /\ now <= new_Date (expires_at r))
  /\ (fst (validate_token env clock now h w) = respond 200 (Validity true None)
      -> rows (snd (validate_token env clock now h w)) = rows w).
Proof.
  assert (Hcases :
    fst (validate_token env clock now h w) = respond 200 (Validity true None)
    -> (exists token c r,
          h = Bearer token
          /\ jwt_verify token (JWT_SECRET env) clock = Ret c
          /\ hd None (faults w) = None
          /\ filter (Store.by_id (claim_id c)) (rows w) = [r]
          /\ revoked_or_suspended r = false
          /\ status r <> "expired"
          /\ now <= new_Date (expires_at r))
       /\ rows (snd (validate_token env clock now h w)) = rows w).
  { unfold validate_token. destruct h as [| |token]; try discriminate.
    unfold_handler.
    destruct (jwt_verify token (JWT_SECRET env) clock) as [c|] eqn:Hc;
      [|discriminate].
    destruct (hd None (faults w)) eqn:Hf; [discriminate|].
    destruct (filter _ (rows w)) as [|r [|r' l]] eqn:Hr; cbn [Store.single];
      try discriminate.
    destruct (revoked_or_suspended r) eqn:Hrev; [discriminate|].
    destruct (new_Date (expires_at r) <? now) eqn:Hlt; cbn [orb].
    { destruct (status r =? "expired")%string; cbn [negb]; cbv iota;
        unfold_handler; [discriminate|].
      destruct (hd None (tl (faults w))); discriminate. }
    destruct (status r =? "expired")%string eqn:Hs; cbn [negb]; cbv iota;
      unfold_handler; [discriminate|].
    intros _. split; [|reflexivity].
    exists token, c, r. apply String.eqb_neq in Hs. apply Z.ltb_ge in Hlt.
    now repeat split. }
  split; [split|]; [apply Hcases | | apply Hcases].
  intros (token & c & r & -> & Hc & Hf & Hr & Hrev & Hs & Hnow).
  apply String.eqb_neq in Hs. apply Z.ltb_ge in Hnow.
  unfold validate_token. unfold_handler.
  rewrite Hc, Hf, Hr. cbn [Store.single].
  now rewrite Hrev, Hnow, Hs.
Qed.

Lemma validate_token_valid_iff_witness :
  fst (validate_token env0 5000 5000 (Bearer session)
         (world_of running_license [])) = respond 200 (Validity true None)
  /\ rows (snd (validate_token env0 5000 5000 (Bearer session)
                  (world_of running_license []))) = [running_license].
Proof.
  destruct (validate_token_valid_iff env0 5000 5000 (Bearer session)
              (world_of running_license [])) as [[_ Hyes] Hrows].
  assert (H : fst (validate_token env0 5000 5000 (Bearer session)
                     (world_of running_license [])) =
              respond 200 (Validity true None)).
  { apply Hyes.
    exists session, (mkClaims 1 "a@b.com" 1 86401), running_license.
    repeat split; try discriminate. }
  split; [exact H | exact (Hrows H)].
Defined.

(** *** Handlers on given records *)

Lemma jwt_verify_token_at (env : Env) (key : string) (r : License)
    (clock clock' : Z) :
  usable (JWT_SECRET env) = Some key ->
  clock' / 1000 < clock / 1000 + 24 * 60 * 60 ->
  jwt_verify (Compact (token_at key r clock)) (JWT_SECRET env) clock' =
    Ret (claims (token_at key r clock)).
Proof.
  intros Hkey Hlt. unfold jwt_verify. rewrite Hkey.
  cbn [token_at signing_key claims exp]. rewrite String.eqb_refl.
  cbn [negb]. apply Z.leb_gt in Hlt. now rewrite Hlt.
Qed.

Lemma jwt_verify_expired (env : Env) (key : string) (r : License)
    (clock clock' : Z) :
  clock / 1000 + 24 * 60 * 60 <= clock' / 1000 ->
  exists msg,
    jwt_verify (Compact (token_at key r clock)) (JWT_SECRET env) clock' =
      Throw msg.
Proof.
  intros Hge. unfold jwt_verify.
  destruct (usable (JWT_SECRET env)) as [k|]; [|eauto].
  cbn [token_at signing_key claims exp].
  destruct (negb (key =? k)%string); [eauto|].
  apply Z.leb_le in Hge. rewrite Hge. eauto.
Qed.

Lemma validate_accepts (env : Env) (clock now : Z) (token : Credential)
    (w : World) (r : License) :
  finds_by_token env clock w token r ->
  revoked_or_suspended r = false -> status r <> "expired" ->
  now <= new_Date (expires_at r) ->
  exists c,
    jwt_verify token (JWT_SECRET env) clock = Ret c
    /\ validate_token env clock now (Bearer token) w =
       (respond 200 (Validity true None),
        mkWorld (rows w) (tl (faults w))
          (calls w ++ [SelectById (claim_id c)])).
Proof.
  intros H Hrev Hs Hnow.
  apply String.eqb_neq in Hs. apply Z.ltb_ge in Hnow.
  assert (Hc' := H). destruct Hc' as (c' & Hc' & _).
  exists c'. split; [exact Hc'|].
  validate_found H. rewrite Hc in Hc'. injection Hc' as <-.
  now rewrite Hrev, Hnow, Hs.
Qed.


Lemma validate_stays_expired (env : Env) (clock now : Z)
    (token : Credential) (w : World) (r : License) :
  finds_by_token env clock w token r ->
  revoked_or_suspended r = false -> status r = "expired" ->
  exists c,
    jwt_verify token (JWT_SECRET env) clock = Ret c
    /\ validate_token env clock now (Bearer token) w =
       (respond 401 (Validity false (Some "EXPIRED")),
        mkWorld (rows w) (tl (faults w))
          (calls w ++ [SelectById (claim_id c)])).
Proof.
  intros H Hrev Hs.
  assert (Hc' := H). destruct Hc' as (c' & Hc' & _).
  exists c'. split; [exact Hc'|].
  validate_found H. rewrite Hc in Hc'. injection Hc' as <-.
  rewrite Hrev, Hs. rewrite orb_true_r. cbv iota. now unfold_handler.
Qed.


(** *** Refusals *)

(** X5.  When the lookup of [/verify] fails or does not return exactly one
    record, the answer is 404 "Invalid credentials" and nothing is written:
    the same answer for an unknown email, a wrong key, and a pair stored
    twice. *)
Theorem verify_invalid_credentials (env : Env) (now clock : Z)
    (e k : JsValue) (w : World) :
  truthy e = true -> truthy k = true ->
  (hd None (faults w) <> None
   \/ forall r,
        filter (Store.by_credentials (text_of e) (text_of k)) (rows w)
        <> [r]) ->
  verify env now clock e k w =
    (respond 404 (Message false "Invalid credentials"),
     mkWorld (rows w) (tl (faults w))
       (calls w ++ [SelectByCredentials (text_of e) (text_of k)])).
Proof.
  intros He Hk H. unfold verify. rewrite He, Hk. cbn [negb orb].
  unfold_handler.
  destruct (hd None (faults w)) as [msg|]; [reflexivity|].
  destruct H as [H | H]; [congruence|].
  destruct (filter _ (rows w)) as [|r [|r' l]] eqn:Hr; cbn [Store.single];
    try reflexivity.
  now destruct (H r).
Qed.

Lemma verify_invalid_credentials_witness :
  fst (verify env0 1000 1000 the_email (JString "PRO-ZZZZ-ZZZZ")
         (world_of fresh_license [])) =
    respond 404 (Message false "Invalid credentials")
  /\ fst (verify env0 1000 1000 (JString "x@y.com") the_key
            (world_of fresh_license [])) =
       respond 404 (Message false "Invalid credentials")
  /\ fst (verify env0 1000 1000 the_email the_key
            (mkWorld [fresh_license; fresh_license] [] [])) =
       respond 404 (Message false "Invalid credentials").
Proof.
  split; [|split].
  - rewrite (verify_invalid_credentials env0 1000 1000 the_email
               (JString "PRO-ZZZZ-ZZZZ") (world_of fresh_license []));
      try reflexivity.
    right. intros r. discriminate.
  - rewrite (verify_invalid_credentials env0 1000 1000 (JString "x@y.com")
               the_key (world_of fresh_license []));
      try reflexivity.
    right. intros r. discriminate.
  - rewrite (verify_invalid_credentials env0 1000 1000 the_email the_key
               (mkWorld [fresh_license; fresh_license] [] []));
      try reflexivity.
    right. intros r. discriminate.
Defined.

(** X6.  A first activation answers 500 "Server error" and leaves the table
    as it was when the expiry date [now + parse(plan_duration)] lies outside
    the range of [Date] (an infinite duration included), in which case no
    write is even issued, and when the activation write fails. *)
Theorem verify_server_error (env : Env) (now clock : Z) (e k : JsValue)
    (w : World) (r : License) :
  finds_by_credentials w e k r ->
  revoked_or_suspended r = false -> activated r = false ->
  ((forall d, getDurationMs (plan_duration r) = JS.Finite d ->
              TIME_CLIP < Z.abs (now + d)) ->
     verify env now clock e k w =
       (respond 500 (Message false "Server error"),
        mkWorld (rows w) (tl (faults w))
          (calls w ++ [SelectByCredentials (text_of e) (text_of k)])))
  /\ (forall d,
        getDurationMs (plan_duration r) = JS.Finite d ->
        Z.abs (now + d) <= TIME_CLIP ->
        hd None (tl (faults w)) <> None ->
        verify env now clock e k w =
          (respond 500 (Message false "Server error"),
           mkWorld (rows w) (tl (tl (faults w)))
             (calls w ++ activation_of (now + d) e k r))).
Proof.
  intros H Hrev Hact. split.
  - intros Hclip.
    verify_found H. rewrite Hrev. fold (activated r). rewrite Hact.
    rewrite toISOString_add.
    destruct (getDurationMs (plan_duration r)) as [d| |];
      [|now unfold_handler | now unfold_handler].
    specialize (Hclip d eq_refl). apply Z.leb_gt in Hclip.
    rewrite Hclip. now unfold_handler.
  - intros d Hd Hclip Hfail. apply Z.leb_le in Hclip.
    verify_found H. rewrite Hrev. fold (activated r). rewrite Hact.
    rewrite toISOString_add, Hd, Hclip. unfold_handler.
    destruct (hd None (tl (faults w))) as [msg|]; [|congruence].
    unfold activation_of. now rewrite <- app_assoc.
Qed.

Lemma verify_server_error_witness :
  verify env0 1000 1000 the_email the_key (world_of endless_license []) =
    (respond 500 (Message false "Server error"),
     mkWorld [endless_license] []
       [SelectByCredentials "a@b.com" "PRO-AAAA-BBBB"])
  /\ verify env0 1000 1000 the_email the_key
       (world_of fresh_license [None; Some "timeout"]) =
     (respond 500 (Message false "Server error"),
      mkWorld [fresh_license] []
        [SelectByCredentials "a@b.com" "PRO-AAAA-BBBB";
         UpdateActivation 1 86401000]).
Proof.
  split.
  - apply (verify_server_error env0 1000 1000 the_email the_key
             (world_of endless_license []) endless_license);
      try reflexivity.
    + repeat split.
    + intros d Hd. vm_compute in Hd. injection Hd as <-. reflexivity.
  - destruct (verify_server_error env0 1000 1000 the_email the_key
                (world_of fresh_license [None; Some "timeout"])
                fresh_license) as [_ H];
      [repeat split | reflexivity | reflexivity |].
    apply (H 86400000);
      [reflexivity | vm_compute; discriminate | discriminate].
Defined.

(** X8.  Without a credential that verifies, [/validate-token] answers 401
    and does not consult the store: NO_TOKEN when the header is missing or is
    not a bearer header, INVALID_SESSION when the credential is malformed,
    signed with another key, or past its 24 hours. *)
Theorem validate_token_without_credential (env : Env) (clock now : Z)
    (w : World) :
  validate_token env clock now NoHeader w =
    (respond 401 (Validity false (Some "NO_TOKEN")), w)
  /\ (forall value,
        validate_token env clock now (OtherScheme value) w =
          (respond 401 (Validity false (Some "NO_TOKEN")), w))
  /\ (forall s,
        validate_token env clock now (Bearer (Garbled s)) w =
          (respond 401 (Validity false (Some "INVALID_SESSION")), w))
  /\ (forall t,
        usable (JWT_SECRET env) <> Some (signing_key t)
        \/ exp (claims t) <= clock / 1000 ->
        validate_token env clock now (Bearer (Compact t)) w =
          (respond 401 (Validity false (Some "INVALID_SESSION")), w)).
Proof.
  split; [reflexivity|]. split; [reflexivity|]. split.
  - intros s. unfold validate_token, jwt_verify. unfold_handler.
    now destruct (usable (JWT_SECRET env)).
  - intros t H. unfold validate_token, jwt_verify. unfold_handler.
    destruct (usable (JWT_SECRET env)) as [key|]; [|reflexivity].
    destruct (signing_key t =? key)%string eqn:Hk; cbn [negb];
      [|reflexivity].
    apply String.eqb_eq in Hk. subst key.
    destruct H as [H | H]; [congruence|].
    apply Z.leb_le in H. now rewrite H.
Qed.

Lemma validate_token_without_credential_witness :
  validate_token env0 5000 5000
    (Bearer (Compact (mkJwt (mkClaims 1 "a@b.com" 1 86401) "guess")))
    (world_of running_license []) =
    (respond 401 (Validity false (Some "INVALID_SESSION")),
     world_of running_license [])
  /\ validate_token env0 86401000 86401000 (Bearer session)
       (world_of running_license []) =
     (respond 401 (Validity false (Some "INVALID_SESSION")),
      world_of running_license []).
Proof.
  destruct (validate_token_without_credential env0 5000 5000
              (world_of running_license [])) as (_ & _ & _ & H1).
  destruct (validate_token_without_credential env0 86401000 86401000
              (world_of running_license [])) as (_ & _ & _ & H2).
  split.
  - apply H1. left. discriminate.
  - apply (H2 (mkJwt (mkClaims 1 "a@b.com" 1 86401) "s3cret")).
    right. vm_compute. discriminate.
Defined.

(** *** From activation to heartbeat *)

Lemma filter_by_id_none i rs :
  ~ In i (map id rs) -> filter (Store.by_id i) rs = [].
Proof.
  induction rs as [|x rs IH]; cbn [map In filter]; intros H; [reflexivity|].
  unfold Store.by_id at 1.
  destruct (id x =? i) eqn:Hx.
  - apply Z.eqb_eq in Hx. exfalso. apply H. now left.
  - apply IH. intros Hin. apply H. now right.
Qed.

Lemma filter_by_id_unique rs r :
  NoDup (map id rs) -> In r rs -> filter (Store.by_id (id r)) rs = [r].
Proof.
  induction rs as [|x rs IH]; cbn [map In filter]; intros Hnd Hin;
    [contradiction|].
  inversion Hnd as [|? ? Hx Hrs]; subst.
  unfold Store.by_id at 1. destruct Hin as [-> | Hin].
  - rewrite Z.eqb_refl. now rewrite filter_by_id_none.
  - destruct (id x =? id r) eqn:Hid.
    + apply Z.eqb_eq in Hid. exfalso. apply Hx. rewrite Hid.
      now apply in_map.
    + now apply IH.
Qed.

Lemma jwt_verify_issued (env : Env) (now clock clock' : Z) (tk : Jwt)
    (r : License) :
  issued_for env now clock tk r ->
  (clock' / 1000 < clock / 1000 + 24 * 60 * 60 ->
     jwt_verify (Compact tk) (JWT_SECRET env) clock' = Ret (claims tk))
  /\ (clock / 1000 + 24 * 60 * 60 <= clock' / 1000 ->
      exists msg,
        jwt_verify (Compact tk) (JWT_SECRET env) clock' = Throw msg).
Proof.
  intros (_ & _ & _ & Hexp & Hkey & _). unfold jwt_verify.
  rewrite Hkey, String.eqb_refl, Hexp. cbn [negb]. split; intros H.
  - apply Z.leb_gt in H. now rewrite H.
  - apply Z.leb_le in H. rewrite H. eauto.
Qed.

(** X10.  A credential that [/verify] has issued is refused by
    [/validate-token] as INVALID_SESSION, without a store call, from 24 hours
    after the second it was signed in; before that it is accepted whenever,
    record ids being unique and the lookup succeeding, its record is not
    marked "expired" and has not reached its [expires_at]. *)
Theorem issued_credential_lifetime (env : Env) (now clock : Z)
    (e k : JsValue) (w : World) (tk : Jwt) :
  fst (verify env now clock e k w) = respond 200 (Token tk) ->
  let w1 := snd (verify env now clock e k w) in
  (forall clock' now',
     clock / 1000 + 24 * 60 * 60 <= clock' / 1000 ->
     validate_token env clock' now' (Bearer (Compact tk)) w1 =
       (respond 401 (Validity false (Some "INVALID_SESSION")), w1))
  /\ (forall clock' now' r,
        clock' / 1000 < clock / 1000 + 24 * 60 * 60 ->
        NoDup (map id (rows w1)) -> hd None (faults w1) = None ->
        In r (rows w1) -> id r = claim_id (claims tk) ->
        status r <> "expired" -> now' <= new_Date (expires_at r) ->
        validate_token env clock' now' (Bearer (Compact tk)) w1 =
          (respond 200 (Validity true None),
           mkWorld (rows w1) (tl (faults w1))
             (calls w1 ++ [SelectById (id r)]))).
Proof.
  intros Hv w1.
  destruct (verify_issues_for env now clock e k w tk Hv) as (r0 & Hin0 & Hr0).
  fold w1 in Hin0. split.
  - intros clock' now' Hlate.
    destruct (proj2 (jwt_verify_issued env now clock clock' tk r0 Hr0) Hlate)
      as (msg & Hthrow).
    unfold validate_token. unfold_handler. now rewrite Hthrow.
  - intros clock' now' r Hsoon Hnd Hf Hin Hid Hs Hnow.
    pose proof (proj1 (jwt_verify_issued env now clock clock' tk r0 Hr0)
                  Hsoon) as Hok.
    assert (r = r0).
    { apply (NoDup_map_eq id (rows w1)); auto.
      destruct Hr0 as (Hid0 & _). congruence. }
    subst r0.
    destruct (validate_accepts env clock' now' (Compact tk) w1 r)
      as (c & Hc & Hval); auto.
    + exists (claims tk). repeat split; auto.
      rewrite <- Hid. now apply filter_by_id_unique.
    + now destruct Hr0 as (_ & _ & _ & _ & _ & _ & Hrev & _).
    + rewrite Hc in Hok. injection Hok as ->. now rewrite Hval, Hid.
Qed.

Lemma issued_credential_lifetime_witness :
  let w1 := snd (verify env0 1000 1000 the_email the_key
                   (world_of fresh_license [])) in
  validate_token env0 86401000 86401000
    (Bearer (Compact (token_at "s3cret" fresh_license 1000))) w1 =
    (respond 401 (Validity false (Some "INVALID_SESSION")), w1)
  /\ fst (validate_token env0 2000 2000
            (Bearer (Compact (token_at "s3cret" fresh_license 1000))) w1) =
     respond 200 (Validity true None).
Proof.
  cbv zeta.
  destruct (issued_credential_lifetime env0 1000 1000 the_email the_key
              (world_of fresh_license [])
              (token_at "s3cret" fresh_license 1000) eq_refl)
    as [Hlate Hsoon].
  split.
  - apply Hlate. vm_compute. discriminate.
  - rewrite (Hsoon 2000 2000 (Store.set_activated 86401000 fresh_license));
      try reflexivity.
    + constructor; [intros [] | constructor].
    + now left.
    + discriminate.
    + vm_compute. discriminate.
Defined.

(** X12.  [/verify] does not look at the status "expired": for a used
    record marked "expired" whose [expires_at] has not passed it still issues
    a credential and writes nothing, and [/validate-token] refuses that very
    credential with reason EXPIRED. *)
Theorem verify_ignores_expired_status (env : Env) (now clock clock' now' : Z)
    (e k : JsValue) (w : World) (r : License) (t : Z) (key : string) :
  finds_by_credentials w e k r ->
  filter (Store.by_id (id r)) (rows w) = [r] ->
  hd None (tl (faults w)) = None ->
  status r = "expired" -> is_used r = true ->
  expires_at r = Some t -> now <= t ->
  usable (JWT_SECRET env) = Some key ->
  clock' / 1000 < clock / 1000 + 24 * 60 * 60 ->
  let v := verify env now clock e k w in
  let h := validate_token env clock' now'
             (Bearer (Compact (token_at key r clock))) (snd v) in
  fst v = respond 200 (Token (token_at key r clock))
  /\ rows (snd v) = rows w
  /\ fst h = respond 401 (Validity false (Some "EXPIRED"))
  /\ rows (snd h) = rows w.
Proof.
  intros H Hid Hok Hs Hu Hx Hnow Hkey Hsoon v h.
  assert (Hrev : revoked_or_suspended r = false).
  { unfold revoked_or_suspended. now rewrite Hs. }
  assert (Hv : v = _) by
    exact (verify_again env now clock e k w r t key H Hrev Hu Hx Hnow Hkey).
  assert (Hfind : finds_by_token env clock' (snd v)
                    (Compact (token_at key r clock)) r).
  { exists (claims (token_at key r clock)). rewrite Hv.
    cbn [snd rows faults]. repeat split; auto.
    now apply jwt_verify_token_at. }
  destruct (validate_stays_expired env clock' now' _ (snd v) r Hfind Hrev Hs)
    as (c & _ & Hh).
  fold h in Hh. rewrite Hh. rewrite Hv. now cbn [fst snd rows].
Qed.

Lemma verify_ignores_expired_status_witness :
  let v := verify env0 5000 5000 the_email the_key
             (world_of stale_license []) in
  fst v = respond 200 (Token (token_at "s3cret" stale_license 5000))
  /\ fst (validate_token env0 5000 5000
            (Bearer (Compact (token_at "s3cret" stale_license 5000)))
            (snd v)) =
     respond 401 (Validity false (Some "EXPIRED")).
Proof.
  cbv zeta.
  destruct (verify_ignores_expired_status env0 5000 5000 5000 5000
              the_email the_key (world_of stale_license []) stale_license
              86401000 "s3cret")
    as (H1 & _ & H2 & _); try reflexivity.
  - repeat split.
  - vm_compute. discriminate.
  - now split.
Defined.

(** *** The life of a license *)








Lemma serve_protects_witness :
  In revoked_license
    (rows (serve env0 sample_requests
             (mkWorld [revoked_license; second_license] [] [])))
  /\ exists r',
       In r' (rows (serve env0 sample_requests
                      (mkWorld [revoked_license; second_license] [] [])))
       /\ settled second_license r'.
Proof.
  destruct (serve_protects env0 sample_requests
              (mkWorld [revoked_license; second_license] [] []))
    as (_ & H).
  - cbn [rows map id revoked_license second_license].
    constructor; [intros [H | []]; discriminate|].
    constructor; [intros [] | constructor].
  - split.
    + apply (H revoked_license); [now left | reflexivity].
    + apply (H second_license); [right; now left | reflexivity].
Defined.

(** *** Activation happens once *)

Lemma well_formed_used r :
  well_formed r -> is_used r = true ->
  activated r = true /\ exists t, expires_at r = Some t.
Proof.
  unfold well_formed, activated. intros Hwf Hu. rewrite Hu in *.
  destruct (expires_at r) as [t|]; [|discriminate].
  split; [reflexivity | now exists t].
Qed.

Lemma well_formed_unactivated r :
  well_formed r -> activated r = false ->
  is_used r = false /\ expires_at r = None.
Proof.
  unfold well_formed, activated. intros Hwf Hact.
  destruct (is_used r), (expires_at r); try discriminate. now split.
Qed.

Lemma update_where_Forall (P : License -> Prop) i f rs :
  (forall r, P r -> P (f r)) ->
  Forall P rs -> Forall P (Store.update_where i f rs).
Proof.
  intros Hf H. unfold Store.update_where. apply Forall_forall.
  intros x Hx. apply in_map_iff in Hx as (r & <- & Hin).
  rewrite Forall_forall in H.
  destruct (Store.by_id i r); [apply Hf|]; now apply H.
Qed.

(** Every request leads from the data model's tables to its tables. *)
Lemma table_step_well_formed rs rs' :
  table_step rs rs' -> Forall well_formed rs -> Forall well_formed rs'.
Proof.
  intros [-> | [(r1 & _ & _ & ->) | [(r1 & t & _ & _ & _ & ->)
                                    | (r & -> & _ & Hu & Hx & _)]]] H.
  - exact H.
  - apply update_where_Forall; [|exact H]. now intros r Hr.
  - apply update_where_Forall; [|exact H]. now intros r Hr.
  - apply Forall_app. split; [exact H|]. constructor; [|constructor].
    unfold well_formed. now rewrite Hu, Hx.
Qed.

Lemma serve_well_formed (env : Env) (reqs : list Request) (w : World) :
  Forall well_formed (rows w) ->
  Forall well_formed (rows (serve env reqs w)).
Proof.
  revert w. induction reqs as [|q qs IH]; intros w H; [exact H|].
  cbn [serve]. apply IH.
  exact (table_step_well_formed _ _ (handle_table_step env q w) H).
Qed.

(** With unique ids, an activated record stays activated, with the same
    [expires_at], through every sequence of requests. *)
Lemma serve_settles (env : Env) (reqs : list Request) (w : World)
    (r : License) :
  NoDup (map id (rows w)) -> In r (rows w) -> activated r = true ->
  exists r', In r' (rows (serve env reqs w)) /\ settled r r'.
Proof.
  revert w r. induction reqs as [|q qs IH]; intros w r Hnd Hin Hact.
  - exists r. now repeat split.
  - cbn [serve].
    pose proof (handle_table_step env q w) as Hstep.
    pose proof (table_step_nodup _ _ Hnd Hstep) as Hnd'.
    destruct (table_step_protects _ _ r Hnd Hstep Hin) as (_ & Hkeep).
    destruct (Hkeep Hact) as (r1 & Hin1 & S1 & S2 & S3 & S4).
    destruct (IH _ r1 Hnd' Hin1 S2) as (r2 & Hin2 & T1 & T2 & T3 & T4).
    exists r2. split; [exact Hin2|].
    repeat split; try congruence. auto.
Qed.

(** The already-activated branch of [/verify]: the answer depends on the
    stored [expires_at] alone. *)
Lemma verify_activated_branch (env : Env) (now clock : Z) (e k : JsValue)
    (w : World) (r : License) (t : Z) :
  finds_by_credentials w e k r ->
  revoked_or_suspended r = false ->
  is_used r = true -> expires_at r = Some t ->
  fst (verify env now clock e k w) =
    if t <? now then respond 403 (Message false "License expired")
    else
      match usable (JWT_SECRET env) with
      | Some key => respond 200 (Token (token_at key r clock))
      | None => respond 500 (Message false "Server error")
      end.
Proof.
  intros H Hrev Hu Hx.
  verify_found H. rewrite Hrev, Hu, Hx. cbn [andb is_set new_Date].
  destruct (t <? now).
  - destruct (status r =? "expired")%string; cbn [negb]; cbv iota;
      unfold_handler; [reflexivity|].
    now destruct (hd None (tl (faults w))).
  - unfold jwt_sign.
    destruct (usable (JWT_SECRET env)); now unfold_handler.
Qed.

(** The activation write, when it is issued and succeeds *)
Lemma verify_activation_rows (env : Env) (now clock : Z) (e k : JsValue)
    (w : World) (r : License) (d : Z) :
  finds_by_credentials w e k r ->
  revoked_or_suspended r = false -> activated r = false ->
  getDurationMs (plan_duration r) = JS.Finite d ->
  Z.abs (now + d) <= TIME_CLIP ->
  hd None (tl (faults w)) = None ->
  rows (snd (verify env now clock e k w)) =
    Store.update_where (id r) (Store.set_activated (now + d)) (rows w).
Proof.
  intros H Hrev Hact Hd Hclip Hok. apply Z.leb_le in Hclip.
  verify_found H. rewrite Hrev. fold (activated r). rewrite Hact.
  rewrite toISOString_add, Hd, Hclip. unfold_handler. rewrite Hok.
  destruct (Store.single _); [destruct (jwt_sign _ _ _ _)|]; reflexivity.
Qed.

(** C2.  Activation is single-shot on the tables of the data model, where a
    record is used exactly when its [expires_at] is set: the tables every
    sequence of requests, handled one after another, leads to from such a
    table, the empty one in particular.

    A record found with [is_used = true] is activated, and [/verify] takes
    the already-activated branch, unless the record is revoked or suspended:
    it answers by the stored [expires_at] alone, issues no activation write
    and changes no row's [expires_at] or [is_used].  An activation write is
    issued only for the record found, only when that record has
    [is_used = false] and no [expires_at], and with
    [now + parse(plan_duration)] as the expiry date; when it succeeds, the
    record is used, expires at that date and is "active".  Hence, ids being
    unique, a used record keeps its [expires_at] through every sequence of
    requests: it is set once. *)
Theorem activation_is_single_shot (env : Env) :
  (forall now clock e k w r,
     finds_by_credentials w e k r -> well_formed r -> is_used r = true ->
     let out := verify env now clock e k w in
     activated r = true
     /\ (revoked_or_suspended r = false ->
         exists t,
           expires_at r = Some t
           /\ fst out =
              if t <? now then respond 403 (Message false "License expired")
              else
                match usable (JWT_SECRET env) with
                | Some key => respond 200 (Token (token_at key r clock))
                | None => respond 500 (Message false "Server error")
                end)
     /\ (forall i t', In (UpdateActivation i t') (calls (snd out)) ->
                      In (UpdateActivation i t') (calls w))
     /\ map expires_at (rows (snd out)) = map expires_at (rows w)
     /\ map is_used (rows (snd out)) = map is_used (rows w))
  /\ (forall now clock e k w i t',
        Forall well_formed (rows w) ->
        let out := verify env now clock e k w in
        In (UpdateActivation i t') (calls (snd out)) ->
        ~ In (UpdateActivation i t') (calls w) ->
        exists r d,
          filter (Store.by_credentials (text_of e) (text_of k)) (rows w) = [r]
          /\ id r = i
          /\ is_used r = false /\ expires_at r = None
          /\ getDurationMs (plan_duration r) = JS.Finite d
          /\ t' = now + d)
  /\ (forall now clock e k w r d,
        finds_by_credentials w e k r -> well_formed r ->
        is_used r = false -> revoked_or_suspended r = false ->
        getDurationMs (plan_duration r) = JS.Finite d ->
        Z.abs (now + d) <= TIME_CLIP ->
        hd None (tl (faults w)) = None ->
        let out := verify env now clock e k w in
        let r' := Store.set_activated (now + d) r in
        rows (snd out) =
          Store.update_where (id r) (Store.set_activated (now + d)) (rows w)
        /\ In r' (rows (snd out))
        /\ is_used r' = true /\ expires_at r' = Some (now + d)
        /\ status r' = "active" /\ well_formed r')
  /\ (forall reqs w,
        Forall well_formed (rows w) ->
        Forall well_formed (rows (serve env reqs w)))
  /\ (forall reqs w r,
        NoDup (map id (rows w)) -> In r (rows w) ->
        well_formed r -> is_used r = true ->
        exists t r',
          expires_at r = Some t
          /\ In r' (rows (serve env reqs w))
          /\ id r' = id r /\ is_used r' = true /\ expires_at r' = Some t).
Proof.
  split; [|split; [|split; [|split]]].
  - intros now clock e k w r H Hwf Hu out. subst out.
    destruct (well_formed_used r Hwf Hu) as (Hact & t & Hx).
    split; [exact Hact|]. split.
    { intros Hrev. exists t. split; [exact Hx|].
      now apply verify_activated_branch. }
    destruct H as (_ & _ & _ & Hr).
    destruct (verify_effect env now clock e k w)
      as (new & Hcalls & [(Hno & Hrows) | (r1 & d & Hr1 & _ & Hg & _)]).
    + split; [|destruct Hrows as [-> | (i & ->)]].
      * intros i t' Hin. rewrite Hcalls in Hin.
        apply in_app_or in Hin as [Hin|Hin]; auto.
        now apply Hno in Hin.
      * now split.
      * apply set_status_keeps.
    + rewrite Hr in Hr1. injection Hr1 as <-. congruence.
  - intros now clock e k w i t' Hwf out Hin Hnew. subst out.
    destruct (verify_effect env now clock e k w)
      as (new & Hcalls & [(Hno & _)
                         | (r1 & d & Hr1 & _ & Hg & Hd & Hact & _)]);
      rewrite Hcalls in Hin; apply in_app_or in Hin as [Hin|Hin];
      try contradiction.
    + now apply Hno in Hin.
    + exists r1, d. subst new. unfold activation_of in Hin.
      destruct Hin as [Hin|[Hin|[]]]; [discriminate|].
      injection Hin as <- <-.
      pose proof (filter_single_In _ _ _ Hr1) as [Hin1 _].
      rewrite Forall_forall in Hwf.
      destruct (well_formed_unactivated r1 (Hwf r1 Hin1) Hg) as [Hu Hx].
      repeat split; auto.
  - intros now clock e k w r d H Hwf Hu Hrev Hd Hclip Hok out r'.
    subst out r'.
    assert (Hact : activated r = false)
      by (unfold activated; now rewrite Hu).
    rewrite (verify_activation_rows env now clock e k w r d
               H Hrev Hact Hd Hclip Hok).
    split; [reflexivity|].
    destruct H as (_ & _ & _ & Hr).
    apply filter_single_In in Hr as [Hin _].
    split; [now apply update_where_In|]. now repeat split.
  - intros reqs w. apply serve_well_formed.
  - intros reqs w r Hnd Hin Hwf Hu.
    destruct (well_formed_used r Hwf Hu) as (Hact & t & Hx).
    destruct (serve_settles env reqs w r Hnd Hin Hact)
      as (r' & Hin' & Hid & Hact' & Hx' & _).
    apply activated_true in Hact' as [Hu' _].
    exists t, r'. repeat split; auto. congruence.
Qed.

Lemma activation_is_single_shot_witness :
  (map expires_at
     (rows (snd (verify env0 5000 5000 the_email the_key
                   (world_of running_license [])))) = [Some 86401000])
  /\ (exists t r',
        expires_at running_license = Some t
        /\ In r' (rows (serve env0 sample_requests
                          (world_of running_license [])))
        /\ id r' = 1 /\ is_used r' = true /\ expires_at r' = Some t)
  /\ expires_at (Store.set_activated (1000 + 86400000) fresh_license) =
       Some 86401000.
Proof.
  destruct (activation_is_single_shot env0) as (Hone & _ & Hset & _ & Hall).
  split; [|split].
  - destruct (Hone 5000 5000 the_email the_key (world_of running_license [])
                running_license) as (_ & _ & _ & Hx & _);
      [repeat split | reflexivity | reflexivity | exact Hx].
  - apply (Hall sample_requests (world_of running_license [])
             running_license); try reflexivity.
    + cbn [rows world_of map]. constructor; [intros [] | constructor].
    + now left.
  - destruct (Hset 1000 1000 the_email the_key (world_of fresh_license [])
                fresh_license 86400000) as (_ & _ & _ & Hx & _);
      [repeat split | reflexivity | reflexivity | reflexivity | reflexivity
      | vm_compute; discriminate | reflexivity | exact Hx].
Defined.
